(** * The number guessing game of [random_number.py]

    A shallow embedding of the game and the properties its specification
    states about it.

    - [Py]: the builtins the program calls ([str.strip], [str.lower],
      [int], [str], [print], [input], [random.randint]) over an explicit
      world of pending input lines and printed text.
    - The functions of [random_number.py], in source order.
    - The theorems, one group per function. *)

From Stdlib Require Import ZArith List String Ascii Bool Lia.
From Stdlib Require Import Numbers.DecimalString.
Import ListNotations.

Local Open Scope string_scope.
Local Open Scope Z_scope.

(* ===================================================================== *)
(** ** The builtins *)
(* ===================================================================== *)

Module Py.

(** An input line is a [string] with one [ascii] per code point; the
    embedding covers the code points below 256. *)
Definition code (c : ascii) : N := N_of_ascii c.

Definition between (lo hi : N) (c : ascii) : bool :=
  (N.leb lo (code c) && N.leb (code c) hi)%bool.

(** [str.isspace] on one code point: TAB..CR, FS..US, SPACE, NEL, NBSP. *)
Definition isspace (c : ascii) : bool :=
  (between 9 13 c || between 28 32 c
   || N.eqb (code c) 133 || N.eqb (code c) 160)%bool.

(** The spaces [int] skips around a number: the C-level ones (TAB..CR and
    SPACE) and the two non-ASCII ones, which it first turns into SPACE.
    FS..US are not among them. *)
Definition int_isspace (c : ascii) : bool :=
  (between 9 13 c || N.eqb (code c) 32
   || N.eqb (code c) 133 || N.eqb (code c) 160)%bool.

Definition isdigit (c : ascii) : bool := between 48 57 c.

Definition digit_value (c : ascii) : Z := Z.of_N (code c) - 48.

(** [str.lower] on one code point: A..Z and the Latin-1 capitals
    (0xC0..0xDE without the multiplication sign 0xD7) move up by 32. *)
Definition lower_char (c : ascii) : ascii :=
  if (between 65 90 c
      || (between 192 222 c && negb (N.eqb (code c) 215)))%bool
  then ascii_of_N (code c + 32)
  else c.

Fixpoint lower (s : string) : string :=
  match s with
  | EmptyString => EmptyString
  | String c s' => String (lower_char c) (lower s')
  end.

Section Strip.
Variable sp : ascii -> bool.

Fixpoint lstrip_by (s : string) : string :=
  match s with
  | EmptyString => EmptyString
  | String c s' => if sp c then lstrip_by s' else s
  end.

Fixpoint rstrip_by (s : string) : string :=
  match s with
  | EmptyString => EmptyString
  | String c s' =>
      match rstrip_by s' with
      | EmptyString => if sp c then EmptyString else String c EmptyString
      | r => String c r
      end
  end.

Definition strip_by (s : string) : string := rstrip_by (lstrip_by s).
End Strip.

(** [s.strip()] *)
Definition strip : string -> string := strip_by isspace.

(** [x in xs] for a list of strings. *)
Definition contains (xs : list string) (x : string) : bool :=
  existsb (String.eqb x) xs.

(** [sep.join(xs)] *)
Definition join (sep : string) (xs : list string) : string :=
  String.concat sep xs.

(** [str(n)] for an integer. *)
Definition str (n : Z) : string := NilZero.string_of_int (Z.to_int n).

Inductive exn : Type := EOFError | ValueError.

(** The body of a decimal literal: digits, with single underscores allowed
    between two digits.  [seen] tells whether the previous character was a
    digit; [acc] is the value read so far. *)
Fixpoint int_body (s : string) (seen : bool) (acc : Z) : option Z :=
  match s with
  | EmptyString => if seen then Some acc else None
  | String c s' =>
      if isdigit c then int_body s' true (10 * acc + digit_value c)
      else if Ascii.eqb c "_" then
             if seen then int_body s' false acc else None
           else None
  end.

Fixpoint count_digits (s : string) : nat :=
  match s with
  | EmptyString => O
  | String c s' => if isdigit c then S (count_digits s') else count_digits s'
  end.

(** The optional sign in front of the body. *)
Definition split_sign (t : string) : bool * string :=
  match t with
  | String "-" b => (true, b)
  | String "+" b => (false, b)
  | _ => (false, t)
  end.

Section Int.
(** The interpreter's cap on the number of digits [int] converts
    ([sys.get_int_max_str_digits()]: 4300 by default from Python 3.11,
    0 when there is none).  The interpreter looks at the cap only for
    strings of more than 640 digits. *)
Variable max_str_digits : nat.

Definition over_limit (body : string) : bool :=
  (Nat.ltb 640 (count_digits body)
   && negb (Nat.eqb max_str_digits 0)
   && Nat.ltb max_str_digits (count_digits body))%bool.

(** [int(s)]: spaces around, one optional sign, the body. *)
Definition int (s : string) : exn + Z :=
  let '(neg, body) := split_sign (strip_by int_isspace s) in
  match int_body body false 0 with
  | None => inl ValueError
  | Some v =>
      if over_limit body then inl ValueError
      else inr (if neg then - v else v)
  end.
End Int.

(** The world the program runs in: the lines still to be typed, the text
    printed so far (one chunk per call of [print], its [end] included, and
    one per prompt of [input]), and the source [random] draws from.  A
    printed chunk holds the bytes that are written, which for the literals
    of the program are the bytes between the quotes in its source file. *)
Record World : Type := mkWorld {
  stdin : list string;
  stdout : list string;
  entropy : nat -> Z;
  draws : nat
}.

Inductive outcome (A : Type) : Type :=
| Returns (a : A) (w : World)
| Raises (e : exn) (w : World)
| Spins.
Arguments Returns {A} a w.
Arguments Raises {A} e w.
Arguments Spins {A}.

Definition IO (A : Type) : Type := World -> outcome A.

Definition ret {A} (a : A) : IO A := fun w => Returns a w.

Definition bind {A B} (m : IO A) (k : A -> IO B) : IO B :=
  fun w =>
    match m w with
    | Returns a w' => k a w'
    | Raises e w' => Raises e w'
    | Spins => Spins
    end.

Definition raise {A} (e : exn) : IO A := fun w => Raises e w.

(** [try: body  except e: handler]; whatever [body] printed and read
    before it raised stays printed and read. *)
Definition try_except {A} (body : IO A) (e : exn) (handler : IO A) : IO A :=
  fun w =>
    match body w with
    | Raises e' w' =>
        match e, e' with
        | EOFError, EOFError | ValueError, ValueError => handler w'
        | _, _ => Raises e' w'
        end
    | r => r
    end.

Definition emit (chunk : string) (w : World) : World :=
  mkWorld (stdin w) (stdout w ++ [chunk]) (entropy w) (draws w).

Definition newline : string := String (ascii_of_N 10) EmptyString.

(** [print(text, end=e)] *)
Definition print_end (text e : string) : IO unit :=
  fun w => Returns tt (emit (text ++ e) w).

(** [print(text)] *)
Definition print (text : string) : IO unit := print_end text newline.

(** [input(prompt)]: the prompt is written, then one line is taken; at the
    end of the input it raises [EOFError]. *)
Definition input (prompt : string) : IO string :=
  fun w =>
    let w1 := emit prompt w in
    match stdin w1 with
    | [] => Raises EOFError w1
    | l :: rest => Returns l (mkWorld rest (stdout w1) (entropy w1) (draws w1))
    end.

(** [random.randint(a, b)]: some integer of [a..b], chosen by the next
    value of the world's source. *)
Definition randint (a b : Z) : IO Z :=
  fun w =>
    Returns (a + (entropy w (draws w)) mod (b - a + 1))
            (mkWorld (stdin w) (stdout w) (entropy w) (S (draws w))).

(** Lifting a result that may be an exception. *)
Definition lift {A} (r : exn + A) : IO A :=
  match r with
  | inl e => raise e
  | inr a => ret a
  end.

End Py.

Declare Scope io_scope.
Delimit Scope io_scope with io.
Notation "x <- m ;; k" := (Py.bind m (fun x => k))
  (at level 61, m at next level, right associativity) : io_scope.
Notation "m ;;; k" := (Py.bind m (fun _ => k))
  (at level 61, right associativity) : io_scope.

Import Py.
Local Open Scope io_scope.

(* ===================================================================== *)
(** ** The program *)
(* ===================================================================== *)

(** [class Difficulty(Enum)]: the value of a member is its number of
    attempts. *)
Inductive Difficulty : Type := NORMAL | HARD.

Definition value (d : Difficulty) : Z :=
  match d with
  | NORMAL => 10
  | HARD => 5
  end.

(** [class GameState(Enum)] *)
Inductive GameState : Type := PLAYING | WON | LOST.

Definition GameState_eqb (a b : GameState) : bool :=
  match a, b with
  | PLAYING, PLAYING | WON, WON | LOST, LOST => true
  | _, _ => false
  end.

(** The three locals [run_game] keeps during a round. *)
Record Session : Type := mkSession {
  target_number : Z;
  remaining_attempts : Z;
  game_state : GameState
}.

(** ['=' * 40] *)
Definition rule : string :=
  "========================================".

(** [get_valid_input], the [while True] loop with a budget of iterations. *)
Fixpoint get_valid_input_loop (budget : nat) (prompt : string)
    (valid_options : list string) : IO string :=
  match budget with
  | O => fun _ => Spins
  | S budget' =>
      line <- input prompt ;;
      let user_input := lower (strip line) in
      if contains valid_options user_input then ret user_input
      else
        print ("Invalid input. Please choose from: "
               ++ join ", " valid_options) ;;;
        get_valid_input_loop budget' prompt valid_options
  end.

(** Every iteration takes a line, so one more iteration than there are
    lines left is all the loop can do. *)
Definition get_valid_input (prompt : string) (valid_options : list string)
  : IO string :=
  fun w =>
    get_valid_input_loop (S (List.length (stdin w))) prompt valid_options w.

Definition validate_guess_range (guess min_val max_val : Z) : bool :=
  ((min_val <=? guess) && (guess <=? max_val))%bool.

Definition select_difficulty (difficulty_input : string) : IO Difficulty :=
  if String.eqb difficulty_input "0" then
    print "Normal Difficulty Selected" ;;; ret NORMAL
  else
    print "Hard Difficulty Selected" ;;; ret HARD.

Definition check_guess (target_number user_guess : Z) : string :=
  if user_guess >? target_number then "too_high"
  else if user_guess <? target_number then "too_low"
  else "correct".

(** [for _ in range(n): body] *)
Fixpoint for_range (n : nat) (body : IO unit) : IO unit :=
  match n with
  | O => ret tt
  | S n' => body ;;; for_range n' body
  end.

Definition heart : string := "â¤ ".

Definition show_life_hearts (remaining_attempts : Z) : IO unit :=
  for_range (Z.to_nat remaining_attempts) (print_end heart "") ;;;
  print "".

Definition show_game_result (target_number : Z) (game_state : GameState)
  : IO unit :=
  if GameState_eqb game_state WON then
    print "Congratulations! You Win! ðŸŽ‰"
  else if GameState_eqb game_state LOST then
    print ("The correct number was: " ++ str target_number) ;;;
    print "You Lose! Better luck next time! ðŸ’”"
  else ret tt.

Section Program.
(** The digit cap of the interpreter the program runs on. *)
Variable max_str_digits : nat.

Definition get_user_guess : IO (option Z) :=
  try_except
    (line <- input "Enter your guess (0-100): " ;;
     guess <- lift (int max_str_digits line) ;;
     if negb (validate_guess_range guess 0 100) then
       print "Please enter a number between 0 and 100." ;;; ret None
     else ret (Some guess))
    ValueError
    (print "Invalid input. Please enter a valid integer." ;;; ret None).

(** Lines 173-175: [user_guess = None; while user_guess is None: ...] *)
Fixpoint guess_loop (budget : nat) (user_guess : option Z) : IO Z :=
  match user_guess with
  | Some g => ret g
  | None =>
      match budget with
      | O => fun _ => Spins
      | S budget' =>
          user_guess' <- get_user_guess ;;
          guess_loop budget' user_guess'
      end
  end.

Definition read_guess : IO Z :=
  fun w => guess_loop (S (List.length (stdin w))) None w.

(** Lines 178-190: the guess is checked and the locals are updated. *)
Definition resolve (s : Session) (user_guess : Z) : IO Session :=
  let result := check_guess (target_number s) user_guess in
  if String.eqb result "correct" then
    ret (mkSession (target_number s) (remaining_attempts s) WON)
  else
    let remaining := remaining_attempts s - 1 in
    if remaining =? 0 then
      ret (mkSession (target_number s) remaining LOST)
    else
      (if String.eqb result "too_high" then
         print (str user_guess ++ " is too high! â†“")
       else
         print (str user_guess ++ " is too low! â†‘")) ;;;
      ret (mkSession (target_number s) remaining (game_state s)).

(** Lines 169-190: one pass through the body of the main game loop. *)
Definition turn (s : Session) : IO Session :=
  print_end (newline ++ "Attempts remaining: ") "" ;;;
  show_life_hearts (remaining_attempts s) ;;;
  user_guess <- read_guess ;;
  resolve s user_guess.

(** Line 168: [while game_state == GameState.PLAYING] *)
Fixpoint game_loop (budget : nat) (s : Session) : IO Session :=
  if GameState_eqb (game_state s) PLAYING then
    match budget with
    | O => fun _ => Spins
    | S budget' =>
        s' <- turn s ;;
        game_loop budget' s'
    end
  else ret s.

(** Lines 145-165: the banner, the target, the difficulty; the locals a
    round starts with. *)
Definition new_round : IO Session :=
  print (newline ++ rule) ;;;
  print "New Game Started!" ;;;
  print rule ;;;
  target <- randint 0 100 ;;
  print (newline ++ "Select Difficulty:") ;;;
  difficulty_input <- get_valid_input "Normal (0) or Hard (1): " ["0"; "1"] ;;
  difficulty <- select_difficulty difficulty_input ;;
  let remaining := value difficulty in
  print (newline ++ "Guess the number between 0 and 100!") ;;;
  print ("You have " ++ str remaining ++ " attempts.") ;;;
  ret (mkSession target remaining PLAYING).

Definition play (s : Session) : IO Session :=
  fun w => game_loop (S (List.length (stdin w))) s w.

(** Lines 145-201: one round, from the banner to the replay question. *)
Definition play_round : IO (Session * string) :=
  s0 <- new_round ;;
  s <- play s0 ;;
  print (newline ++ rule) ;;;
  show_game_result (target_number s) (game_state s) ;;;
  print rule ;;;
  play_again <- get_valid_input
                  (newline ++ "Would you like to play again? (y/n): ")
                  ["y"; "n"] ;;
  ret (s, play_again).

(** Line 144: [while play_again == 'y'] *)
Fixpoint replay_loop (budget : nat) (play_again : string) : IO unit :=
  if String.eqb play_again "y" then
    match budget with
    | O => fun _ => Spins
    | S budget' =>
        r <- play_round ;;
        replay_loop budget' (snd r)
    end
  else ret tt.

Definition run_game : IO unit :=
  print rule ;;;
  print "Welcome to the Number Guessing Game!" ;;;
  print rule ;;;
  (fun w => replay_loop (S (List.length (stdin w))) "y" w) ;;;
  print (newline ++ rule) ;;;
  print "Thanks for playing! Goodbye! ðŸ‘‹" ;;;
  print rule.

End Program.

Definition world0 (lines : list string) : World :=
  mkWorld lines [] (fun _ => 42) O.

(* ===================================================================== *)
(** ** The specification's vocabulary *)
(* ===================================================================== *)

(** The specification's [GuessOutcome] and [evaluateGuess], as it words
    them: the outcome of comparing a guess to the target. *)
Inductive GuessOutcome : Type := CORRECT | TOO_HIGH | TOO_LOW.

Definition evaluateGuess (target guess : Z) : GuessOutcome :=
  match guess ?= target with
  | Eq => CORRECT
  | Gt => TOO_HIGH
  | Lt => TOO_LOW
  end.

(** The specification's [advance]: "if outcome is CORRECT, set state=WON;
    otherwise decrement remaining_attempts, and if it reaches 0, set
    state=LOST, else remain PLAYING". *)
Definition advance (s : Session) (guess : Z) : Session :=
  match evaluateGuess (target_number s) guess with
  | CORRECT => mkSession (target_number s) (remaining_attempts s) WON
  | _ =>
      let remaining := remaining_attempts s - 1 in
      mkSession (target_number s) remaining
                (if remaining =? 0 then LOST else PLAYING)
  end.

(** What a run leaves behind apart from the printed text: the value it
    returned and the lines it did not read. *)
Definition settled {A} (r : outcome A) : option (A * list string) :=
  match r with
  | Returns a w => Some (a, stdin w)
  | _ => None
  end.

(** The world after some more chunks were printed. *)
Definition emits (chunks : list string) (w : World) : World :=
  mkWorld (stdin w) (stdout w ++ chunks) (entropy w) (draws w).

(** The world with [rest] as the lines still to be typed. *)
Definition fed (rest : list string) (w : World) : World :=
  mkWorld rest (stdout w) (entropy w) (draws w).

(** A line the guess prompt accepts as the guess [g]. *)
Definition accepts (cap : nat) (line : string) (g : Z) : Prop :=
  int cap line = inr g /\ validate_guess_range g 0 100 = true.

(** A line the guess prompt turns down. *)
Definition rejected (cap : nat) (line : string) : bool :=
  match int cap line with
  | inl _ => true
  | inr g => negb (validate_guess_range g 0 100)
  end.

(** One pass of the main loop, as a relation between the locals before
    and after it: the loop is entered in state [PLAYING] only, and the
    guess it resolves has passed the range check. *)
Definition step (s s' : Session) : Prop :=
  game_state s = PLAYING /\
  exists g w w',
    validate_guess_range g 0 100 = true /\ resolve s g w = Returns s' w'.

(** The locals a round can hold at the head of its main loop. *)
Inductive reachable : Session -> Prop :=
| reach_start (target : Z) (d : Difficulty) :
    0 <= target <= 100 ->
    reachable (mkSession target (value d) PLAYING)
| reach_step (s s' : Session) :
    reachable s -> step s s' -> reachable s'.

(** What [turn] has printed when it asks for the guess. *)
Definition indicator (n : Z) : list string :=
  (newline ++ "Attempts remaining: ")
    :: repeat heart (Z.to_nat n) ++ [newline].

(** The chunks the guess prompt prints for a line: the prompt, and the
    complaint when the line is turned down. *)
Definition guess_prompt : string := "Enter your guess (0-100): ".

Definition complaint (cap : nat) (line : string) : list string :=
  match int cap line with
  | inl _ => ["Invalid input. Please enter a valid integer." ++ newline]
  | inr g =>
      if validate_guess_range g 0 100 then []
      else ["Please enter a number between 0 and 100." ++ newline]
  end.

(** The answer [get_user_guess] gives for a line. *)
Definition answer (cap : nat) (line : string) : option Z :=
  match int cap line with
  | inl _ => None
  | inr g => if validate_guess_range g 0 100 then Some g else None
  end.

(** What [get_valid_input] compares with its options. *)
Definition normalised (line : string) : string := lower (strip line).

Definition invalid_notice (valid_options : list string) : string :=
  ("Invalid input. Please choose from: " ++ join ", " valid_options)
    ++ newline.

(** The guess the guess prompt ends up with, and the lines left after it:
    the first line it accepts. *)
Fixpoint first_guess (cap : nat) (lines : list string)
  : option (Z * list string) :=
  match lines with
  | [] => None
  | line :: rest =>
      match answer cap line with
      | Some g => Some (g, rest)
      | None => first_guess cap rest
      end
  end.

(** The hint printed after a wrong guess that leaves attempts. *)
Definition feedback (s : Session) (g : Z) : list string :=
  match evaluateGuess (target_number s) g with
  | CORRECT => []
  | TOO_HIGH =>
      if remaining_attempts s - 1 =? 0 then []
      else [(str g ++ " is too high! â†“") ++ newline]
  | TOO_LOW =>
      if remaining_attempts s - 1 =? 0 then []
      else [(str g ++ " is too low! â†‘") ++ newline]
  end.

(** The invariant of the main loop: attempts are left while the round is
    being played, none when it is lost, never a negative number. *)
Definition well_counted (s : Session) : Prop :=
  0 <= remaining_attempts s /\
  (game_state s = PLAYING -> 1 <= remaining_attempts s) /\
  (game_state s = LOST -> remaining_attempts s = 0).

(** The line [show_game_result] prints for a lost round. *)
Definition reveal (target : Z) : string :=
  ("The correct number was: " ++ str target) ++ newline.

(** All the characters of a string pass a test. *)
Fixpoint every (p : ascii -> bool) (s : string) : bool :=
  match s with
  | EmptyString => true
  | String c s' => (p c && every p s')%bool
  end.

(** What [show_game_result] prints. *)
Definition result_lines (target : Z) (state : GameState) : list string :=
  match state with
  | WON => ["Congratulations! You Win! ðŸŽ‰" ++ newline]
  | LOST => [reveal target; "You Lose! Better luck next time! ðŸ’”" ++ newline]
  | PLAYING => []
  end.

Fixpoint starts_with (pat s : string) : bool :=
  match pat with
  | EmptyString => true
  | String a pat' =>
      match s with
      | EmptyString => false
      | String b s' => (Ascii.eqb a b && starts_with pat' s')%bool
      end
  end.

(** A chunk that starts like the line with the target. *)
Definition announces (chunk : string) : bool :=
  starts_with "The correct number was: " chunk.

Definition quiet (printed : list string) : Prop :=
  Forall (fun chunk => announces chunk = false) printed.

(** A run only adds to the printed text, and what it adds is [quiet]. *)
Definition frames {A} (m : IO A) : Prop :=
  forall w,
    match m w with
    | Returns _ w' | Raises _ w' =>
        exists printed,
          stdout w' = (stdout w ++ printed)%list /\ quiet printed
    | Spins => True
    end.

(** A run reads its lines from the front and in order, leaves the random
    source alone, and fails only with [EOFError], once no line is left. *)
Definition tidy {A} (m : IO A) : Prop :=
  forall w,
    match m w with
    | Returns _ w' =>
        exists read,
          stdin w = (read ++ stdin w')%list /\
          entropy w' = entropy w /\ (draws w <= draws w')%nat
    | Raises e w' =>
        e = EOFError /\ stdin w' = [] /\ entropy w' = entropy w
    | Spins => True
    end.

(** The number of guesses in front of the first one that hits the target
    (all of them when none does). *)
Fixpoint misses (target : Z) (gs : list Z) : nat :=
  match gs with
  | [] => O
  | g :: gs' => if g =? target then O else S (misses target gs')
  end.

(** The main loop of a round told line by line: in state [PLAYING] one
    line is read, the locals move by [advance] when it is accepted and stay
    when it is turned down; in another state the lines left are given
    back.  [None]: the lines ran out during play. *)
Fixpoint referee (cap : nat) (lines : list string) (s : Session)
  : option (Session * list string) :=
  if GameState_eqb (game_state s) PLAYING then
    match lines with
    | [] => None
    | line :: rest =>
        referee cap rest
          (match answer cap line with
           | Some g => advance s g
           | None => s
           end)
    end
  else Some (s, lines).

(** The decimal numerals of 0..100. *)
Definition numerals : list Z := map Z.of_nat (seq 0 101).

(* ===================================================================== *)
(** ** Facts about the builtins *)
(* ===================================================================== *)

Local Open Scope list_scope.

Example int_probe :
  map (Py.int 4300)
      ["42"; " 7 "; "+5"; "-5"; "5_0"; "007"; ""; "-"; "_5"; "5_"; "5__0";
       "- 5"; "5 0"; "abc"; "150"; "1e2"]
  = [inr 42; inr 7; inr 5; inr (-5); inr 50; inr 7; inl Py.ValueError;
     inl Py.ValueError; inl Py.ValueError; inl Py.ValueError;
     inl Py.ValueError; inl Py.ValueError; inl Py.ValueError;
     inl Py.ValueError; inr 150; inl Py.ValueError].
Proof. reflexivity. Qed.

Example select_difficulty_probe :
  select_difficulty "0" (world0 [])
  = Returns NORMAL
            (mkWorld [] [("Normal Difficulty Selected" ++ newline)%string]
                     (fun _ => 42) O).
Proof. reflexivity. Qed.

Lemma emits_nil w : emits [] w = w.
Proof. destruct w; unfold emits; simpl. now rewrite app_nil_r. Qed.

Lemma emit_emits c cs w : emit c (emits cs w) = emits (cs ++ [c]) w.
Proof. unfold emit, emits; simpl. now rewrite app_assoc. Qed.

Lemma emits_emits cs ds w : emits ds (emits cs w) = emits (cs ++ ds) w.
Proof. unfold emits; simpl. now rewrite app_assoc. Qed.

Lemma emit_one c w : emit c w = emits [c] w.
Proof. reflexivity. Qed.

Lemma for_range_print n text w :
  for_range n (print_end text "") w
  = Returns tt (emits (repeat (text ++ "")%string n) w).
Proof.
  revert w; induction n as [|n IH]; intros w; simpl.
  - now rewrite emits_nil.
  - unfold bind at 1. unfold print_end at 1.
    rewrite IH, emit_one, emits_emits. reflexivity.
Qed.

Lemma count_occ_repeat_same (x : string) n :
  count_occ string_dec (repeat x n) x = n.
Proof.
  induction n as [|n IH]; simpl; [reflexivity|].
  destruct (string_dec x x); congruence.
Qed.

(* ===================================================================== *)
(** ** [check_guess] *)
(* ===================================================================== *)

Lemma check_guess_cases t g :
  check_guess t g
  = match evaluateGuess t g with
    | CORRECT => "correct"
    | TOO_HIGH => "too_high"
    | TOO_LOW => "too_low"
    end.
Proof.
  unfold check_guess, evaluateGuess, Z.gtb, Z.ltb.
  destruct (g ?= t); reflexivity.
Qed.

(** C1: [check_guess t g] is ['correct'] iff [g = t], ['too_high'] iff
    [g > t] and ['too_low'] iff [g < t]; its result is determined by its
    two arguments alone (it is a function into [string], outside [IO]). *)
Theorem check_guess_spec (t g : Z) :
  (check_guess t g = "correct" <-> g = t) /\
  (check_guess t g = "too_high" <-> g > t) /\
  (check_guess t g = "too_low" <-> g < t).
Proof.
  rewrite check_guess_cases. unfold evaluateGuess.
  destruct (Z.compare_spec g t) as [E|L|G];
    repeat split; intros H; try discriminate; try reflexivity; lia.
Qed.

(* ===================================================================== *)
(** ** [select_difficulty] and the attempt budget *)
(* ===================================================================== *)

Lemma select_difficulty_runs c w :
  select_difficulty c w
  = Returns (if String.eqb c "0" then NORMAL else HARD)
            (emits [((if String.eqb c "0"
                      then "Normal Difficulty Selected"
                      else "Hard Difficulty Selected") ++ newline)%string] w).
Proof.
  unfold select_difficulty. destruct (String.eqb c "0"); reflexivity.
Qed.

(** C9: [select_difficulty] answers [NORMAL] for the string ['0'] and
    for no other; every other string, validated or not, gets [HARD]; it
    always returns. *)
Theorem select_difficulty_else_hard (c : string) (w : World) :
  exists d w',
    select_difficulty c w = Returns d w' /\
    (d = NORMAL <-> c = "0") /\
    (d = HARD <-> c <> "0").
Proof.
  rewrite select_difficulty_runs.
  destruct (String.eqb_spec c "0") as [E|N].
  - eexists _, _. split; [reflexivity|]. split; split; intros; congruence.
  - eexists _, _. split; [reflexivity|]. split; split; intros; congruence.
Qed.

(* ===================================================================== *)
(** ** [show_life_hearts] *)
(* ===================================================================== *)

Lemma show_life_hearts_runs n w :
  show_life_hearts n w
  = Returns tt (emits (repeat heart (Z.to_nat n) ++ [newline]) w).
Proof.
  unfold show_life_hearts, bind. rewrite for_range_print.
  unfold print, print_end. rewrite emit_one, emits_emits. reflexivity.
Qed.

Lemma turn_indicator cap s w :
  turn cap s w
  = (g <- read_guess cap ;; resolve s g)
      (emits (indicator (remaining_attempts s)) w).
Proof.
  unfold turn. unfold bind at 1. unfold print_end at 1.
  unfold bind at 1. rewrite show_life_hearts_runs.
  rewrite emit_one, emits_emits. reflexivity.
Qed.

(** C8: with [n >= 0] attempts left, [show_life_hearts] prints the heart
    [n] times and then ends the line, and that is the indicator [turn]
    has printed, after its caption, when it asks for the guess. *)
Theorem hearts_count (cap : nat) (n : Z) (w : World) :
  0 <= n ->
  (exists printed,
     show_life_hearts n w = Returns tt (emits printed w) /\
     printed = (repeat heart (Z.to_nat n) ++ [newline]) /\
     Z.of_nat (count_occ string_dec printed heart) = n) /\
  (forall s, remaining_attempts s = n ->
     turn cap s w
     = (g <- read_guess cap ;; resolve s g) (emits (indicator n) w)) /\
  Z.of_nat (count_occ string_dec (indicator n) heart) = n.
Proof.
  intros Hn.
  assert (C : Z.of_nat (count_occ string_dec
                (repeat heart (Z.to_nat n) ++ [newline]) heart) = n).
  { rewrite count_occ_app, count_occ_repeat_same. simpl. lia. }
  split; [|split].
  - eexists. split; [apply show_life_hearts_runs|]. split; [reflexivity|].
    exact C.
  - intros s <-. apply turn_indicator.
  - unfold indicator. rewrite count_occ_cons_neq by discriminate. exact C.
Qed.

Lemma hearts_count_witness :
  0 <= 3 /\
  Z.of_nat (count_occ string_dec (indicator 3) heart) = 3.
Proof.
  split; [lia|].
  apply (hearts_count 4300 3 (world0 [])). lia.
Defined.

(* ===================================================================== *)
(** ** [get_user_guess] and the loop around it *)
(* ===================================================================== *)

Lemma int_raises_ValueError cap s e : int cap s = inl e -> e = ValueError.
Proof.
  unfold int.
  destruct (split_sign (strip_by int_isspace s)) as [neg body].
  destruct (int_body body false 0); [destruct (over_limit cap body)|];
    intros H; inversion H; reflexivity.
Qed.

Lemma answer_Some cap line g :
  answer cap line = Some g <-> accepts cap line g.
Proof.
  unfold answer, accepts.
  destruct (int cap line) as [e|v].
  - split; [discriminate|]. intros [H _]; discriminate.
  - destruct (validate_guess_range v 0 100) eqn:V.
    + split.
      * intros H; inversion H; subst; auto.
      * intros [H _]; inversion H; subst; reflexivity.
    + split; [discriminate|].
      intros [H V']; inversion H; subst; congruence.
Qed.

Lemma answer_None cap line :
  answer cap line = None <-> rejected cap line = true.
Proof.
  unfold answer, rejected.
  destruct (int cap line) as [e|v].
  - split; reflexivity.
  - destruct (validate_guess_range v 0 100); simpl; split;
      congruence.
Qed.

Lemma get_user_guess_line cap line rest o e d :
  get_user_guess cap (mkWorld (line :: rest) o e d)
  = Returns (answer cap line)
            (mkWorld rest (o ++ guess_prompt :: complaint cap line) e d).
Proof.
  unfold get_user_guess, try_except, bind, input, answer, complaint; simpl.
  destruct (int cap line) as [x|g] eqn:E; simpl.
  - rewrite (int_raises_ValueError _ _ _ E). simpl.
    unfold bind, print, print_end, emit; simpl.
    now rewrite <- app_assoc.
  - destruct (validate_guess_range g 0 100); simpl.
    + reflexivity.
    + unfold bind, print, print_end, emit; simpl.
      now rewrite <- app_assoc.
Qed.

Lemma get_user_guess_eof cap o e d :
  get_user_guess cap (mkWorld [] o e d)
  = Raises EOFError (mkWorld [] (o ++ [guess_prompt]) e d).
Proof. reflexivity. Qed.

Lemma guess_loop_line cap b line rest o e d :
  guess_loop cap (S b) None (mkWorld (line :: rest) o e d)
  = guess_loop cap b (answer cap line)
      (mkWorld rest (o ++ guess_prompt :: complaint cap line) e d).
Proof.
  simpl. unfold bind. rewrite get_user_guess_line. reflexivity.
Qed.

(** A budget beyond the number of pending lines is never used up, and
    the result does not depend on it. *)
Lemma guess_loop_budget cap lines :
  forall b b' o e d,
    (List.length lines < b)%nat -> (List.length lines < b')%nat ->
    guess_loop cap b None (mkWorld lines o e d)
    = guess_loop cap b' None (mkWorld lines o e d)
    /\ guess_loop cap b None (mkWorld lines o e d) <> Spins.
Proof.
  induction lines as [|line rest IH]; intros b b' o e d Hb Hb';
    destruct b as [|b]; destruct b' as [|b']; simpl in Hb, Hb'; try lia.
  - simpl. unfold bind. rewrite get_user_guess_eof. split; congruence.
  - rewrite !guess_loop_line.
    destruct (answer cap line) as [g|].
    + destruct b, b'; simpl; split; unfold ret; congruence.
    + apply IH; lia.
Qed.

Lemma read_guess_line cap line rest o e d :
  read_guess cap (mkWorld (line :: rest) o e d)
  = match answer cap line with
    | Some g => Returns g (mkWorld rest (o ++ [guess_prompt]) e d)
    | None =>
        read_guess cap
          (mkWorld rest (o ++ guess_prompt :: complaint cap line) e d)
    end.
Proof.
  unfold read_guess. cbn [stdin List.length].
  rewrite guess_loop_line.
  destruct (answer cap line) as [g|] eqn:A.
  - assert (C : complaint cap line = []).
    { unfold answer in A. unfold complaint.
      destruct (int cap line) as [x|v]; [discriminate|].
      destruct (validate_guess_range v 0 100); [reflexivity|discriminate]. }
    rewrite C. destruct (List.length rest); reflexivity.
  - reflexivity.
Qed.

Lemma read_guess_eof cap o e d :
  read_guess cap (mkWorld [] o e d)
  = Raises EOFError (mkWorld [] (o ++ [guess_prompt]) e d).
Proof. reflexivity. Qed.

(** [read_guess] always comes back: with a guess, or with [EOFError] when
    the input ends first. *)
Lemma read_guess_total cap w : read_guess cap w <> Spins.
Proof.
  destruct w as [lines o e d]. unfold read_guess. cbn [stdin].
  apply (guess_loop_budget cap lines _ (S (List.length lines))); lia.
Qed.

(** The guess it comes back with was accepted from one of the lines. *)
Lemma read_guess_valid cap w g w' :
  read_guess cap w = Returns g w' -> validate_guess_range g 0 100 = true.
Proof.
  destruct w as [lines o e d]. revert o.
  induction lines as [|line rest IH]; intros o.
  - rewrite read_guess_eof. discriminate.
  - rewrite read_guess_line.
    destruct (answer cap line) as [g0|] eqn:A.
    + intros H; inversion H; subst.
      apply answer_Some in A. apply A.
    + apply IH.
Qed.

Lemma first_guess_shorter cap lines g rest :
  first_guess cap lines = Some (g, rest) ->
  (List.length rest < List.length lines)%nat.
Proof.
  induction lines as [|line tl IH]; simpl; [discriminate|].
  destruct (answer cap line).
  - intros H; inversion H; subst; lia.
  - intros H; specialize (IH H); lia.
Qed.

Lemma first_guess_valid cap lines g rest :
  first_guess cap lines = Some (g, rest) ->
  validate_guess_range g 0 100 = true.
Proof.
  induction lines as [|line tl IH]; simpl; [discriminate|].
  destruct (answer cap line) eqn:A; [|exact IH].
  intros H; inversion H; subst. apply answer_Some in A. apply A.
Qed.

Lemma read_guess_first cap lines :
  forall o e d,
    match first_guess cap lines with
    | Some (g, rest) =>
        exists printed, read_guess cap (mkWorld lines o e d)
                        = Returns g (mkWorld rest (o ++ printed) e d)
    | None =>
        exists printed, read_guess cap (mkWorld lines o e d)
                        = Raises EOFError (mkWorld [] (o ++ printed) e d)
    end.
Proof.
  induction lines as [|line rest IH]; intros o e d.
  - simpl. eexists. apply read_guess_eof.
  - simpl. rewrite read_guess_line.
    destruct (answer cap line) as [g|].
    + eexists; reflexivity.
    + specialize (IH (o ++ guess_prompt :: complaint cap line) e d).
      destruct (first_guess cap rest) as [[g tl]|]; destruct IH as [pr IH];
        rewrite IH, <- app_assoc; eexists; reflexivity.
Qed.

(* ===================================================================== *)
(** ** The turn and the main loop *)
(* ===================================================================== *)

Lemma GameState_eqb_eq a b : GameState_eqb a b = true <-> a = b.
Proof. destruct a, b; simpl; split; congruence. Qed.

Lemma resolve_advance s g w :
  game_state s = PLAYING ->
  resolve s g w = Returns (advance s g) (emits (feedback s g) w).
Proof.
  intros P. unfold resolve, advance, feedback.
  rewrite check_guess_cases, P.
  destruct (evaluateGuess (target_number s) g); simpl.
  - now rewrite emits_nil.
  - destruct (remaining_attempts s - 1 =? 0); simpl.
    + now rewrite emits_nil.
    + reflexivity.
  - destruct (remaining_attempts s - 1 =? 0); simpl.
    + now rewrite emits_nil.
    + reflexivity.
Qed.

Lemma turn_first cap s lines o e d :
  game_state s = PLAYING ->
  match first_guess cap lines with
  | Some (g, rest) =>
      exists printed, turn cap s (mkWorld lines o e d)
                      = Returns (advance s g) (mkWorld rest (o ++ printed) e d)
  | None =>
      exists printed, turn cap s (mkWorld lines o e d)
                      = Raises EOFError (mkWorld [] (o ++ printed) e d)
  end.
Proof.
  intros P. rewrite turn_indicator.
  unfold emits; cbn [stdin stdout entropy draws].
  pose proof (read_guess_first cap lines
                (o ++ indicator (remaining_attempts s)) e d) as R.
  destruct (first_guess cap lines) as [[g rest]|]; destruct R as [pr R];
    unfold bind; rewrite R.
  - rewrite (resolve_advance _ _ _ P). unfold emits.
    cbn [stdin stdout entropy draws]. rewrite <- !app_assoc.
    eexists. reflexivity.
  - rewrite <- app_assoc. eexists. reflexivity.
Qed.

(** The main loop never uses up a budget beyond the number of pending
    lines, and its result does not depend on such a budget. *)
Lemma game_loop_budget cap :
  forall b b' s lines o e d,
    (List.length lines < b)%nat -> (List.length lines < b')%nat ->
    game_loop cap b s (mkWorld lines o e d)
    = game_loop cap b' s (mkWorld lines o e d)
    /\ game_loop cap b s (mkWorld lines o e d) <> Spins.
Proof.
  induction b as [|b IH]; intros b' s lines o e d Hb Hb'; [lia|].
  destruct b' as [|b']; [lia|]. simpl.
  destruct (GameState_eqb (game_state s) PLAYING) eqn:P.
  - apply GameState_eqb_eq in P.
    pose proof (turn_first cap s lines o e d P) as T.
    destruct (first_guess cap lines) as [[g rest]|] eqn:F;
      destruct T as [o' T]; unfold bind; rewrite T.
    + apply first_guess_shorter in F. apply IH; lia.
    + split; congruence.
  - unfold ret. split; congruence.
Qed.

Lemma play_total cap s w : play cap s w <> Spins.
Proof.
  destruct w as [lines o e d]. unfold play. cbn [stdin].
  apply (game_loop_budget cap _ (S (List.length lines))); lia.
Qed.

Lemma play_terminal cap s w :
  game_state s <> PLAYING -> play cap s w = Returns s w.
Proof.
  intros N. unfold play. simpl.
  destruct (GameState_eqb (game_state s) PLAYING) eqn:P; [|reflexivity].
  apply GameState_eqb_eq in P. contradiction.
Qed.

Lemma play_first cap s lines o e d :
  game_state s = PLAYING ->
  match first_guess cap lines with
  | Some (g, rest) =>
      exists printed,
        play cap s (mkWorld lines o e d)
        = play cap (advance s g) (mkWorld rest (o ++ printed) e d)
  | None =>
      exists printed,
        play cap s (mkWorld lines o e d)
        = Raises EOFError (mkWorld [] (o ++ printed) e d)
  end.
Proof.
  intros P.
  assert (U : play cap s (mkWorld lines o e d)
              = (s' <- turn cap s ;; game_loop cap (List.length lines) s')
                  (mkWorld lines o e d)).
  { unfold play. cbn [stdin game_loop]. rewrite P. reflexivity. }
  rewrite U. clear U.
  pose proof (turn_first cap s lines o e d P) as T.
  destruct (first_guess cap lines) as [[g rest]|] eqn:F;
    destruct T as [o' T]; unfold bind; rewrite T.
  - exists o'. apply first_guess_shorter in F.
    unfold play. cbn [stdin].
    apply (game_loop_budget cap); lia.
  - exists o'. reflexivity.
Qed.

Lemma advance_correct s g :
  g = target_number s ->
  advance s g = mkSession (target_number s) (remaining_attempts s) WON.
Proof.
  intros ->. unfold advance, evaluateGuess. now rewrite Z.compare_refl.
Qed.

Lemma advance_wrong s g :
  g <> target_number s ->
  advance s g
  = mkSession (target_number s) (remaining_attempts s - 1)
              (if remaining_attempts s - 1 =? 0 then LOST else PLAYING).
Proof.
  intros N. unfold advance, evaluateGuess.
  destruct (Z.compare_spec g (target_number s)); [contradiction| |];
    reflexivity.
Qed.

Lemma game_loop_terminal cap b s w :
  game_state s <> PLAYING -> game_loop cap b s w = Returns s w.
Proof.
  intros N. destruct b; simpl;
    (destruct (GameState_eqb (game_state s) PLAYING) eqn:P;
     [apply GameState_eqb_eq in P; contradiction | reflexivity]).
Qed.

(** C2: in state [PLAYING], what lines 178-190 do with a guess is the
    specification's [advance]: a correct guess gives [WON] and leaves the
    attempts alone (target 42, guess 42 wins at once); a wrong guess takes
    one attempt away and gives [LOST] exactly when none is left, else the
    state stays [PLAYING]; a whole turn fed an accepted line does the same;
    and in a state other than [PLAYING] the main loop does nothing. *)
Theorem turn_is_advance (cap : nat) (s : Session) (g : Z) (w : World) :
  game_state s = PLAYING ->
  resolve s g w = Returns (advance s g) (emits (feedback s g) w) /\
  (g = target_number s ->
   advance s g = mkSession (target_number s) (remaining_attempts s) WON) /\
  (g <> target_number s ->
   target_number (advance s g) = target_number s /\
   remaining_attempts (advance s g) = remaining_attempts s - 1 /\
   (game_state (advance s g) = LOST <-> remaining_attempts s - 1 = 0) /\
   (game_state (advance s g) = PLAYING <-> remaining_attempts s - 1 <> 0)) /\
  (forall line rest,
     accepts cap line g ->
     exists printed,
       turn cap s (fed (line :: rest) w)
       = Returns (advance s g) (emits printed (fed rest w))) /\
  (forall b t r,
     game_loop cap b (mkSession t r WON) w = Returns (mkSession t r WON) w /\
     game_loop cap b (mkSession t r LOST) w = Returns (mkSession t r LOST) w) /\
  advance (mkSession 42 (remaining_attempts s) PLAYING) 42
  = mkSession 42 (remaining_attempts s) WON.
Proof.
  intros P. split; [|split; [|split; [|split; [|split]]]].
  - apply resolve_advance, P.
  - apply advance_correct.
  - intros N. rewrite (advance_wrong _ _ N). cbn.
    destruct (Z.eqb_spec (remaining_attempts s - 1) 0) as [E|E];
      repeat split; intros; try congruence; try lia.
  - intros line rest A. destruct w as [i o e d]. unfold fed, emits.
    cbn [stdin stdout entropy draws].
    pose proof (turn_first cap s (line :: rest) o e d P) as T.
    cbn [first_guess] in T.
    apply answer_Some in A. rewrite A in T. exact T.
  - intros b t r. split; apply game_loop_terminal; cbn; discriminate.
  - reflexivity.
Qed.

Lemma turn_is_advance_witness :
  game_state (mkSession 42 10 PLAYING) = PLAYING /\
  resolve (mkSession 42 10 PLAYING) 42 (world0 [])
  = Returns (mkSession 42 10 WON) (world0 []).
Proof.
  split; [reflexivity|].
  exact (proj1 (turn_is_advance 4300 (mkSession 42 10 PLAYING) 42
                  (world0 []) eq_refl)).
Defined.

(* ===================================================================== *)
(** ** The states a round reaches *)
(* ===================================================================== *)

Lemma well_counted_start t d : well_counted (mkSession t (value d) PLAYING).
Proof.
  destruct d; unfold well_counted; cbn; repeat split; intros; try lia;
    discriminate.
Qed.

Lemma step_advance s s' :
  step s s' -> exists g, game_state s = PLAYING /\ s' = advance s g.
Proof.
  intros [P (g & w & w' & _ & R)].
  rewrite (resolve_advance _ _ _ P) in R. inversion R; subst.
  exists g. auto.
Qed.

Lemma well_counted_step s s' : well_counted s -> step s s' -> well_counted s'.
Proof.
  intros (H0 & H1 & H2) St.
  destruct (step_advance _ _ St) as (g & P & ->).
  specialize (H1 P).
  destruct (Z.eq_dec g (target_number s)) as [E|N].
  - rewrite (advance_correct _ _ E). unfold well_counted; cbn.
    repeat split; intros; try lia; discriminate.
  - rewrite (advance_wrong _ _ N). unfold well_counted; cbn.
    destruct (Z.eqb_spec (remaining_attempts s - 1) 0);
      repeat split; intros; try lia; discriminate.
Qed.

Lemma reachable_well_counted s : reachable s -> well_counted s.
Proof.
  induction 1 as [t d _|s s' _ IH St].
  - apply well_counted_start.
  - exact (well_counted_step _ _ IH St).
Qed.

(** The relation covers what the code does: a turn of the main loop is a
    [step]. *)
Lemma turn_step cap s w s' w' :
  game_state s = PLAYING -> turn cap s w = Returns s' w' -> step s s'.
Proof.
  intros P T. destruct w as [lines o e d].
  pose proof (turn_first cap s lines o e d P) as F.
  destruct (first_guess cap lines) as [[g rest]|] eqn:G;
    destruct F as [pr F]; rewrite F in T; [|discriminate].
  inversion T; subst. split; [exact P|].
  exists g, (world0 []), (emits (feedback s g) (world0 [])).
  split; [exact (first_guess_valid _ _ _ _ G)|].
  apply resolve_advance, P.
Qed.

Lemma resolve_wrong s g w :
  g <> target_number s ->
  exists s' printed,
    resolve s g w = Returns s' (emits printed w) /\
    remaining_attempts s' = remaining_attempts s - 1.
Proof.
  intros N. unfold resolve. rewrite check_guess_cases. unfold evaluateGuess.
  destruct (Z.compare_spec g (target_number s)) as [E|L|G];
    [contradiction| |]; cbn [String.eqb Ascii.eqb Bool.eqb];
    (destruct (remaining_attempts s - 1 =? 0);
     [ eexists _, []; rewrite emits_nil; split; reflexivity
     | eexists _, _; unfold bind, print, print_end, ret; rewrite emit_one;
       split; reflexivity ]).
Qed.

(** C3: a turn with a guess other than the target leaves exactly one
    attempt fewer; in every state a round reaches the attempts left are
    not negative, and they are still not negative after such a turn (which
    the main loop takes in state [PLAYING] only). *)
Theorem attempts_decrease_by_one (s : Session) :
  reachable s ->
  0 <= remaining_attempts s /\
  (forall g w,
     g <> target_number s ->
     exists s' printed,
       resolve s g w = Returns s' (emits printed w) /\
       remaining_attempts s' = remaining_attempts s - 1 /\
       (game_state s = PLAYING -> 0 <= remaining_attempts s')).
Proof.
  intros R. destruct (reachable_well_counted _ R) as (H0 & H1 & _).
  split; [exact H0|].
  intros g w N. destruct (resolve_wrong s g w N) as (s' & pr & E & D).
  exists s', pr. split; [exact E|]. split; [exact D|].
  intros P. specialize (H1 P). lia.
Qed.

Lemma attempts_decrease_by_one_witness :
  reachable (mkSession 42 10 PLAYING) /\
  0 <= remaining_attempts (mkSession 42 10 PLAYING).
Proof.
  assert (R : reachable (mkSession 42 10 PLAYING)).
  { apply (reach_start 42 NORMAL). lia. }
  split; [exact R|].
  exact (proj1 (attempts_decrease_by_one _ R)).
Defined.

(** C10: in every state a round reaches, [PLAYING] comes with at least
    one attempt left: the count starts at 10 or 5, and the decrement that
    brings it to 0 sets [LOST] in the same pass. *)
Theorem playing_has_attempts (s : Session) :
  reachable s -> game_state s = PLAYING -> 1 <= remaining_attempts s.
Proof.
  intros R. apply (reachable_well_counted _ R).
Qed.

Lemma playing_has_attempts_witness :
  1 <= remaining_attempts (advance (mkSession 42 5 PLAYING) 7).
Proof.
  apply playing_has_attempts; [|reflexivity].
  apply (reach_step (mkSession 42 5 PLAYING)).
  - apply (reach_start 42 HARD). lia.
  - split; [reflexivity|].
    exists 7, (world0 []), (emits (feedback (mkSession 42 5 PLAYING) 7) (world0 [])).
    split; reflexivity.
Defined.

(* ===================================================================== *)
(** ** [get_valid_input] *)
(* ===================================================================== *)

Lemma get_valid_input_loop_line b p opts line rest o e d :
  get_valid_input_loop (S b) p opts (mkWorld (line :: rest) o e d)
  = if contains opts (normalised line)
    then Returns (normalised line) (mkWorld rest (o ++ [p]) e d)
    else get_valid_input_loop b p opts
           (mkWorld rest (o ++ [p; invalid_notice opts]) e d).
Proof.
  cbn [get_valid_input_loop]. unfold bind at 1. unfold input.
  cbn [emit stdin stdout entropy draws]. fold (normalised line).
  destruct (contains opts (normalised line)); [reflexivity|].
  unfold bind, print, print_end, emit. cbn [stdin stdout entropy draws].
  rewrite <- app_assoc. reflexivity.
Qed.

Lemma get_valid_input_loop_eof b p opts o e d :
  get_valid_input_loop (S b) p opts (mkWorld [] o e d)
  = Raises EOFError (mkWorld [] (o ++ [p]) e d).
Proof. reflexivity. Qed.

Lemma get_valid_input_loop_budget p opts lines :
  forall b b' o e d,
    (List.length lines < b)%nat -> (List.length lines < b')%nat ->
    get_valid_input_loop b p opts (mkWorld lines o e d)
    = get_valid_input_loop b' p opts (mkWorld lines o e d)
    /\ get_valid_input_loop b p opts (mkWorld lines o e d) <> Spins.
Proof.
  induction lines as [|line rest IH]; intros b b' o e d Hb Hb';
    destruct b as [|b]; destruct b' as [|b']; simpl in Hb, Hb'; try lia.
  - rewrite !get_valid_input_loop_eof. split; congruence.
  - rewrite !get_valid_input_loop_line.
    destruct (contains opts (normalised line)).
    + split; congruence.
    + apply IH; lia.
Qed.

Lemma get_valid_input_line p opts line rest o e d :
  get_valid_input p opts (mkWorld (line :: rest) o e d)
  = if contains opts (normalised line)
    then Returns (normalised line) (mkWorld rest (o ++ [p]) e d)
    else get_valid_input p opts
           (mkWorld rest (o ++ [p; invalid_notice opts]) e d).
Proof.
  unfold get_valid_input. cbn [stdin List.length].
  rewrite get_valid_input_loop_line.
  destruct (contains opts (normalised line)); [reflexivity|].
  apply (get_valid_input_loop_budget p opts rest); lia.
Qed.

Lemma get_valid_input_eof p opts o e d :
  get_valid_input p opts (mkWorld [] o e d)
  = Raises EOFError (mkWorld [] (o ++ [p]) e d).
Proof. reflexivity. Qed.

Lemma get_valid_input_total p opts w : get_valid_input p opts w <> Spins.
Proof.
  destruct w as [lines o e d]. unfold get_valid_input. cbn [stdin].
  apply (get_valid_input_loop_budget p opts lines _ (S (List.length lines)));
    lia.
Qed.

Lemma contains_In opts x : contains opts x = true <-> In x opts.
Proof.
  unfold contains. rewrite existsb_exists. split.
  - intros (y & I & E). apply String.eqb_eq in E. now subst.
  - intros I. exists x. split; [exact I|apply String.eqb_refl].
Qed.

Lemma get_valid_input_member p opts w v w' :
  get_valid_input p opts w = Returns v w' ->
  In v opts /\ exists line, In line (stdin w) /\ v = normalised line.
Proof.
  destruct w as [lines o e d]. revert o.
  induction lines as [|line rest IH]; intros o.
  - rewrite get_valid_input_eof. discriminate.
  - rewrite get_valid_input_line.
    destruct (contains opts (normalised line)) eqn:C.
    + intros H; inversion H; subst. split; [now apply contains_In|].
      exists line. split; [now left|reflexivity].
    + intros H. destruct (IH _ H) as (I & l & Il & E).
      split; [exact I|]. exists l. split; [now right|exact E].
Qed.

(** The chunks printed while [get_valid_input] turns lines down. *)
Lemma get_valid_input_skips p opts bad :
  forall good rest o e d,
    forallb (fun l => negb (contains opts (normalised l))) bad = true ->
    contains opts (normalised good) = true ->
    get_valid_input p opts (mkWorld (bad ++ good :: rest) o e d)
    = Returns (normalised good)
        (mkWorld rest
           (o ++ flat_map (fun _ => [p; invalid_notice opts]) bad ++ [p])
           e d).
Proof.
  induction bad as [|l bad IH]; intros good rest o e d B G.
  - cbn [app flat_map]. rewrite get_valid_input_line, G. reflexivity.
  - cbn [forallb] in B. apply andb_true_iff in B as [B1 B2].
    apply negb_true_iff in B1.
    cbn [app flat_map]. rewrite get_valid_input_line, B1.
    rewrite (IH good rest _ e d B2 G). rewrite <- app_assoc. reflexivity.
Qed.

Lemma get_valid_input_never p opts bad :
  forall o e d,
    forallb (fun l => negb (contains opts (normalised l))) bad = true ->
    exists printed,
      get_valid_input p opts (mkWorld bad o e d)
      = Raises EOFError (mkWorld [] (o ++ printed) e d).
Proof.
  induction bad as [|l bad IH]; intros o e d B.
  - rewrite get_valid_input_eof. eexists. reflexivity.
  - cbn [forallb] in B. apply andb_true_iff in B as [B1 B2].
    apply negb_true_iff in B1.
    rewrite get_valid_input_line, B1.
    destruct (IH (o ++ [p; invalid_notice opts]) e d B2) as [pr E].
    rewrite E, <- app_assoc. eexists. reflexivity.
Qed.

(* ===================================================================== *)
(** ** Case and surrounding spaces *)
(* ===================================================================== *)

Ltac each_char c :=
  destruct c as [[] [] [] [] [] [] [] []]; reflexivity.

Lemma isspace_lower_char c : isspace (lower_char c) = isspace c.
Proof. each_char c. Qed.

Lemma int_isspace_lower_char c : int_isspace (lower_char c) = int_isspace c.
Proof. each_char c. Qed.

Lemma isdigit_lower_char c : isdigit (lower_char c) = isdigit c.
Proof. each_char c. Qed.

Lemma digit_value_lower_char c :
  isdigit c = true -> digit_value (lower_char c) = digit_value c.
Proof.
  destruct c as [[] [] [] [] [] [] [] []]; intros H;
    try discriminate H; reflexivity.
Qed.

Lemma underscore_lower_char c :
  Ascii.eqb (lower_char c) "_" = Ascii.eqb c "_".
Proof. each_char c. Qed.

Lemma split_sign_lower_char c b :
  split_sign (String (lower_char c) (lower b))
  = (fst (split_sign (String c b)), lower (snd (split_sign (String c b)))).
Proof. each_char c. Qed.

Lemma lower_idempotent_char c : lower_char (lower_char c) = lower_char c.
Proof. each_char c. Qed.

Section StripFacts.
Variable sp : ascii -> bool.
Hypothesis sp_lower : forall c, sp (lower_char c) = sp c.

Lemma lstrip_by_lower s : lstrip_by sp (lower s) = lower (lstrip_by sp s).
Proof.
  induction s as [|c s IH]; simpl; [reflexivity|].
  rewrite sp_lower. destruct (sp c); [exact IH|reflexivity].
Qed.

Lemma rstrip_by_lower s : rstrip_by sp (lower s) = lower (rstrip_by sp s).
Proof.
  induction s as [|c s IH]; simpl; [reflexivity|].
  rewrite IH, sp_lower.
  destruct (rstrip_by sp s); simpl; [destruct (sp c)|]; reflexivity.
Qed.

Lemma strip_by_lower s : strip_by sp (lower s) = lower (strip_by sp s).
Proof. unfold strip_by. now rewrite lstrip_by_lower, rstrip_by_lower. Qed.
End StripFacts.

Section PadFacts.
Variable sp : ascii -> bool.

Lemma lstrip_by_pad p s :
  every sp p = true -> lstrip_by sp (p ++ s)%string = lstrip_by sp s.
Proof.
  induction p as [|c p IH]; simpl; [reflexivity|].
  intros H. apply andb_true_iff in H as [-> H]. exact (IH H).
Qed.

Lemma rstrip_by_blank p : every sp p = true -> rstrip_by sp p = EmptyString.
Proof.
  induction p as [|c p IH]; simpl; [reflexivity|].
  intros H. apply andb_true_iff in H as [-> H]. now rewrite (IH H).
Qed.

Lemma rstrip_by_pad s p :
  every sp p = true -> rstrip_by sp (s ++ p)%string = rstrip_by sp s.
Proof.
  intros H. induction s as [|c s IH]; simpl.
  - exact (rstrip_by_blank p H).
  - now rewrite IH.
Qed.

Lemma lstrip_by_blank p : every sp p = true -> lstrip_by sp p = EmptyString.
Proof.
  induction p as [|c p IH]; simpl; [reflexivity|].
  intros H. apply andb_true_iff in H as [-> H]. exact (IH H).
Qed.

Lemma strip_by_pad_right s p :
  every sp p = true -> strip_by sp (s ++ p)%string = strip_by sp s.
Proof.
  intros H. unfold strip_by. induction s as [|c s IH]; simpl.
  - now rewrite (lstrip_by_blank p H).
  - destruct (sp c); [exact IH|].
    exact (rstrip_by_pad (String c s) p H).
Qed.

(** Spaces around a string do not change what is left after stripping. *)
Lemma strip_by_pad p s q :
  every sp p = true -> every sp q = true ->
  strip_by sp (p ++ s ++ q)%string = strip_by sp s.
Proof.
  intros Hp Hq. unfold strip_by at 1. rewrite (lstrip_by_pad _ _ Hp).
  exact (strip_by_pad_right s q Hq).
Qed.
End PadFacts.

Lemma lower_idempotent s : lower (lower s) = lower s.
Proof.
  induction s as [|c s IH]; simpl; [reflexivity|].
  now rewrite lower_idempotent_char, IH.
Qed.

Lemma normalised_lower s : normalised (lower s) = normalised s.
Proof.
  unfold normalised, strip.
  rewrite (strip_by_lower isspace isspace_lower_char).
  apply lower_idempotent.
Qed.

Lemma normalised_pad p s q :
  every isspace p = true -> every isspace q = true ->
  normalised (p ++ s ++ q)%string = normalised s.
Proof.
  intros Hp Hq. unfold normalised, strip.
  now rewrite (strip_by_pad isspace p s q Hp Hq).
Qed.

Lemma int_body_lower s :
  forall seen acc, int_body (lower s) seen acc = int_body s seen acc.
Proof.
  induction s as [|c s IH]; intros seen acc; simpl; [reflexivity|].
  rewrite isdigit_lower_char, underscore_lower_char.
  destruct (isdigit c) eqn:D.
  - rewrite (digit_value_lower_char c D). apply IH.
  - destruct (Ascii.eqb c "_"); [|reflexivity].
    destruct seen; [apply IH|reflexivity].
Qed.

Lemma count_digits_lower s : count_digits (lower s) = count_digits s.
Proof.
  induction s as [|c s IH]; simpl; [reflexivity|].
  rewrite isdigit_lower_char, IH. reflexivity.
Qed.

Lemma split_sign_lower t :
  split_sign (lower t) = (fst (split_sign t), lower (snd (split_sign t))).
Proof.
  destruct t as [|c b]; [reflexivity|]. apply split_sign_lower_char.
Qed.

(** [int] does not see the case of its argument. *)
Lemma int_lower cap s : int cap (lower s) = int cap s.
Proof.
  unfold int.
  rewrite (strip_by_lower int_isspace int_isspace_lower_char).
  rewrite split_sign_lower.
  destruct (split_sign (strip_by int_isspace s)) as [neg body]. cbn [fst snd].
  rewrite int_body_lower. unfold over_limit. rewrite count_digits_lower.
  reflexivity.
Qed.

(** [int] does not see the spaces around its argument. *)
Lemma int_pad cap p s q :
  every int_isspace p = true -> every int_isspace q = true ->
  int cap (p ++ s ++ q)%string = int cap s.
Proof.
  intros Hp Hq. unfold int.
  now rewrite (strip_by_pad int_isspace p s q Hp Hq).
Qed.

Lemma same_case_normalised line line' :
  lower line = lower line' -> normalised line = normalised line'.
Proof.
  intros E. rewrite <- (normalised_lower line), E. apply normalised_lower.
Qed.

Lemma same_case_int cap line line' :
  lower line = lower line' -> int cap line = int cap line'.
Proof.
  intros E. rewrite <- (int_lower cap line), E. apply int_lower.
Qed.

Lemma read_guess_skips cap bad :
  forall good g rest o e d,
    forallb (rejected cap) bad = true ->
    accepts cap good g ->
    exists printed,
      read_guess cap (mkWorld (bad ++ good :: rest) o e d)
      = Returns g (mkWorld rest (o ++ printed) e d).
Proof.
  induction bad as [|l bad IH]; intros good g rest o e d B A.
  - cbn [app]. rewrite read_guess_line.
    apply answer_Some in A. rewrite A. eexists. reflexivity.
  - cbn [forallb] in B. apply andb_true_iff in B as [B1 B2].
    apply answer_None in B1.
    cbn [app]. rewrite read_guess_line, B1.
    destruct (IH good g rest (o ++ guess_prompt :: complaint cap l) e d B2 A)
      as [pr E].
    rewrite E, <- app_assoc. eexists. reflexivity.
Qed.

Example replay_choice_probe :
  settled (get_valid_input "? " ["y"; "n"] (world0 ["maybe"; "  Y "; "n"]))
  = Some ("y", ["n"]).
Proof. reflexivity. Qed.

Example guess_probe :
  settled (read_guess 4300 (world0 ["abc"; "150"; "-1"; " 42 "; "7"]))
  = Some (42, ["7"]).
Proof. reflexivity. Qed.

(** The spaces [str.strip] trims and [int] does not skip are the four
    separators FS, GS, RS, US. *)
Lemma spaces_int_keeps c :
  (int_isspace c = true -> isspace c = true) /\
  ((isspace c = true /\ int_isspace c = false) <-> between 28 31 c = true).
Proof.
  destruct c as [[] [] [] [] [] [] [] []]; cbv;
    (split; [intros H; first [reflexivity|discriminate H]|]);
    (split; [intros [H1 H2]; first [reflexivity|discriminate]
            |intros H; first [discriminate H|split; reflexivity]]).
Qed.

Lemma rstrip_by_last sp u c :
  sp c = false ->
  rstrip_by sp (u ++ String c EmptyString)%string
  = (u ++ String c EmptyString)%string.
Proof.
  intros C. induction u as [|a u IH]; cbn [append rstrip_by].
  - now rewrite C.
  - rewrite IH. destruct u; reflexivity.
Qed.

Lemma lstrip_by_last sp s c :
  sp c = false ->
  exists u, lstrip_by sp (s ++ String c EmptyString)%string
            = (u ++ String c EmptyString)%string.
Proof.
  intros C. induction s as [|a s IH]; cbn [append lstrip_by].
  - rewrite C. exists EmptyString. reflexivity.
  - destruct (sp a); [exact IH|]. exists (String a s). reflexivity.
Qed.

Lemma int_body_last v c :
  isdigit c = false -> Ascii.eqb c "_" = false ->
  forall seen acc,
    int_body (v ++ String c EmptyString)%string seen acc = None.
Proof.
  intros D U. induction v as [|a v IH]; intros seen acc;
    cbn [append int_body].
  - now rewrite D, U.
  - destruct (isdigit a); [apply IH|].
    destruct (Ascii.eqb a "_"); [|reflexivity].
    destruct seen; [apply IH|reflexivity].
Qed.

Lemma separator_is_no_literal c :
  between 28 31 c = true ->
  int_isspace c = false /\ isdigit c = false /\ Ascii.eqb c "_" = false /\
  Ascii.eqb c "-" = false /\ Ascii.eqb c "+" = false.
Proof.
  destruct c as [[] [] [] [] [] [] [] []]; intros H;
    first [discriminate H|repeat split].
Qed.

(** A guess line with one of the separators in front is not an integer
    for [int]. *)
Lemma int_leading_separator cap c s :
  between 28 31 c = true -> int cap (String c s) = inl ValueError.
Proof.
  intros H. destruct (separator_is_no_literal c H) as (S & D & U & M & P).
  unfold int, strip_by. cbn [lstrip_by]. rewrite S.
  assert (R : exists r, rstrip_by int_isspace (String c s) = String c r).
  { cbn [rstrip_by]. destruct (rstrip_by int_isspace s);
      [rewrite S|]; eexists; reflexivity. }
  destruct R as [r ->].
  assert (G : split_sign (String c r) = (false, String c r)).
  { destruct c as [[] [] [] [] [] [] [] []];
      first [discriminate M|discriminate P|reflexivity]. }
  rewrite G. cbn [int_body]. now rewrite D, U.
Qed.

(** Nor is one with a separator at the end. *)
Lemma int_trailing_separator cap c s :
  between 28 31 c = true ->
  int cap (s ++ String c EmptyString)%string = inl ValueError.
Proof.
  intros H. destruct (separator_is_no_literal c H) as (S & D & U & M & P).
  unfold int, strip_by.
  destruct (lstrip_by_last int_isspace s c S) as [u ->].
  rewrite (rstrip_by_last int_isspace u c S).
  assert (G : exists neg v,
             split_sign (u ++ String c EmptyString)%string
             = (neg, (v ++ String c EmptyString)%string)).
  { destruct u as [|a u]; cbn [append].
    - exists false, EmptyString.
      destruct c as [[] [] [] [] [] [] [] []];
        first [discriminate M|discriminate P|reflexivity].
    - destruct (Ascii.eqb_spec a "-") as [->|Nm];
        [exists true, u; reflexivity|].
      destruct (Ascii.eqb_spec a "+") as [->|Np];
        [exists false, u; reflexivity|].
      exists false, (String a u).
      destruct a as [[] [] [] [] [] [] [] []];
        first [contradiction Nm; reflexivity
              |contradiction Np; reflexivity|reflexivity]. }
  destruct G as (neg & v & ->).
  now rewrite (int_body_last v c D U).
Qed.

(** C7, as the code has it: every prompt compares its line without
    regard to case and to the spaces around it, and asks again for as long
    as the line does not fit; the spaces are those of [str.strip] at the
    difficulty and the replay prompt, and those [int] skips at the guess
    prompt, which are the same but for the separators FS, GS, RS, US: a
    guess with one of these in front or at the end is turned down.
    [get_valid_input] compares [line.strip().lower()] with the options,
    returns it when it is one of them and otherwise prints the notice and
    reads the next line, however many lines that takes; what it returns is
    a member of [valid_options].  The guess prompt hands its line to
    [int], which reads the same number whatever the case and the spaces
    it skips around it, and reads the next line after one it turns down.
    Neither loop stops otherwise than by an answer or the end of the
    input. *)
Theorem inputs_normalised_and_retried (cap : nat) :
  (forall p opts line rest o e d,
     get_valid_input p opts (mkWorld (line :: rest) o e d)
     = if contains opts (lower (strip line))
       then Returns (lower (strip line)) (mkWorld rest (o ++ [p]) e d)
       else get_valid_input p opts
              (mkWorld rest (o ++ [p; invalid_notice opts]) e d)) /\
  (forall line line',
     lower line = lower line' ->
     lower (strip line) = lower (strip line')) /\
  (forall p s q,
     every isspace p = true -> every isspace q = true ->
     lower (strip (p ++ s ++ q)%string) = lower (strip s)) /\
  (forall p opts bad good rest o e d,
     forallb (fun l => negb (contains opts (lower (strip l)))) bad = true ->
     contains opts (lower (strip good)) = true ->
     get_valid_input p opts (mkWorld (bad ++ good :: rest) o e d)
     = Returns (lower (strip good))
         (mkWorld rest
            (o ++ flat_map (fun _ => [p; invalid_notice opts]) bad ++ [p])
            e d)) /\
  (forall p opts bad o e d,
     forallb (fun l => negb (contains opts (lower (strip l)))) bad = true ->
     exists printed,
       get_valid_input p opts (mkWorld bad o e d)
       = Raises EOFError (mkWorld [] (o ++ printed) e d)) /\
  (forall p opts w v w',
     get_valid_input p opts w = Returns v w' -> In v opts) /\
  (forall p opts w, get_valid_input p opts w <> Spins) /\
  (forall line line',
     lower line = lower line' -> int cap line = int cap line') /\
  (forall p s q,
     every int_isspace p = true -> every int_isspace q = true ->
     int cap (p ++ s ++ q)%string = int cap s) /\
  (forall c,
     (int_isspace c = true -> isspace c = true) /\
     ((isspace c = true /\ int_isspace c = false)
      <-> between 28 31 c = true)) /\
  (forall c s,
     between 28 31 c = true ->
     int cap (String c s) = inl ValueError /\
     int cap (s ++ String c EmptyString)%string = inl ValueError) /\
  (forall bad good g rest o e d,
     forallb (rejected cap) bad = true ->
     accepts cap good g ->
     exists printed,
       read_guess cap (mkWorld (bad ++ good :: rest) o e d)
       = Returns g (mkWorld rest (o ++ printed) e d)) /\
  (forall w, read_guess cap w <> Spins).
Proof.
  repeat match goal with |- _ /\ _ => split end.
  - exact get_valid_input_line.
  - exact same_case_normalised.
  - exact normalised_pad.
  - intros p opts bad. exact (get_valid_input_skips p opts bad).
  - intros p opts bad. exact (get_valid_input_never p opts bad).
  - intros p opts w v w' H. exact (proj1 (get_valid_input_member _ _ _ _ _ H)).
  - exact get_valid_input_total.
  - exact (same_case_int cap).
  - exact (int_pad cap).
  - exact spaces_int_keeps.
  - intros c s H. split;
      [apply int_leading_separator|apply int_trailing_separator]; exact H.
  - intros bad. exact (read_guess_skips cap bad).
  - exact (read_guess_total cap).
Qed.

Lemma inputs_normalised_and_retried_witness :
  (every isspace " " = true /\
   lower (strip (" " ++ "Y" ++ " ")%string) = lower (strip "Y")) /\
  (lower "Y" = lower "y" /\ lower (strip "Y") = lower (strip "y")) /\
  (every int_isspace "  " = true /\
   int 4300 ("  " ++ "42" ++ "  ")%string = int 4300 "42") /\
  (between 28 31 "028" = true /\
   int 4300 (String "028" "42") = inl ValueError).
Proof.
  pose proof (inputs_normalised_and_retried 4300)
    as (_ & Hcase & Hpad & _ & _ & _ & _ & _ & Hint & _ & Hsep & _).
  split; [|split; [|split]].
  - split; [reflexivity|]. apply (Hpad " " "Y" " "); reflexivity.
  - split; [reflexivity|]. apply (Hcase "Y" "y"). reflexivity.
  - split; [reflexivity|]. apply (Hint "  " "42" "  "); reflexivity.
  - split; [reflexivity|]. apply (Hsep "028"%char "42"). reflexivity.
Defined.

(** C7 as it was claimed does not hold at the guess prompt: the line
    FS ['42'] is ['42'] once stripped, and is taken as such where
    [get_valid_input] reads it, but [get_user_guess] turns it down, though
    it accepts ['42']. *)
Lemma guess_with_separator_is_rejected :
  every isspace (String "028" "") = true /\
  lower (strip (String "028" "42")) = "42" /\
  settled (get_valid_input "? " ["42"] (world0 [String "028" "42"]))
  = Some ("42", []) /\
  settled (get_user_guess 4300 (world0 ["42"])) = Some (Some 42, []) /\
  settled (get_user_guess 4300 (world0 [String "028" "42"]))
  = Some (None, []) /\
  ~ (forall line rest,
       settled (get_user_guess 4300 (world0 (line :: rest)))
       = settled (get_user_guess 4300
                    (world0 (lower (strip line) :: rest)))).
Proof.
  repeat match goal with |- _ /\ _ => split end; try reflexivity.
  intros H. specialize (H (String "028" "42") []). discriminate H.
Qed.

(* ===================================================================== *)
(** ** A guess that is turned down *)
(* ===================================================================== *)

Lemma resolve_returns s g :
  exists s', forall w, exists printed,
    resolve s g w = Returns s' (emits printed w).
Proof.
  unfold resolve.
  destruct (String.eqb (check_guess (target_number s) g) "correct").
  - eexists. intros w. exists []. now rewrite emits_nil.
  - destruct (remaining_attempts s - 1 =? 0).
    + eexists. intros w. exists []. now rewrite emits_nil.
    + destruct (String.eqb (check_guess (target_number s) g) "too_high");
        eexists; intros w; eexists; unfold bind, print, print_end, ret;
        rewrite emit_one; reflexivity.
Qed.

(** What a turn settles does not depend on the text printed before it. *)
Lemma guess_then_resolve_settled cap s lines o1 o2 e d :
  settled ((g <- read_guess cap ;; resolve s g) (mkWorld lines o1 e d))
  = settled ((g <- read_guess cap ;; resolve s g) (mkWorld lines o2 e d)).
Proof.
  pose proof (read_guess_first cap lines o1 e d) as R1.
  pose proof (read_guess_first cap lines o2 e d) as R2.
  destruct (first_guess cap lines) as [[g rest]|];
    destruct R1 as [p1 R1]; destruct R2 as [p2 R2];
    unfold bind; rewrite R1, R2; [|reflexivity].
  destruct (resolve_returns s g) as [s' H].
  destruct (H (mkWorld rest (o1 ++ p1) e d)) as [q1 ->].
  destruct (H (mkWorld rest (o2 ++ p2) e d)) as [q2 ->].
  reflexivity.
Qed.

Lemma turn_rejected_line cap s line rest o e d :
  answer cap line = None ->
  settled (turn cap s (mkWorld (line :: rest) o e d))
  = settled (turn cap s (mkWorld rest o e d)).
Proof.
  intros A. rewrite !turn_indicator. unfold emits.
  cbn [stdin stdout entropy draws].
  transitivity
    (settled ((g <- read_guess cap ;; resolve s g)
                (mkWorld rest ((o ++ indicator (remaining_attempts s))
                               ++ guess_prompt :: complaint cap line) e d))).
  - unfold bind. rewrite read_guess_line, A. reflexivity.
  - apply guess_then_resolve_settled.
Qed.

Lemma answer_in_range cap line g :
  answer cap line = Some g <-> int cap line = inr g /\ 0 <= g <= 100.
Proof.
  rewrite answer_Some. unfold accepts, validate_guess_range.
  rewrite andb_true_iff, !Z.leb_le. reflexivity.
Qed.

Lemma answer_150 cap : answer cap "150" = None.
Proof. reflexivity. Qed.

Lemma answer_abc cap : answer cap "abc" = None.
Proof. reflexivity. Qed.

(** C5: [get_user_guess] reads one line and answers [None] both for a
    line [int] does not take and for an integer outside 0..100 (such as
    ['150']); it answers the guess [g] exactly when the line reads as the
    integer [g] with [0 <= g <= 100].  After [None] the loop asks again,
    and the turn settles as if the line had never been typed: the locals
    of the round, [remaining_attempts] among them, are what they would be
    without it. *)
Theorem bad_guess_costs_nothing (cap : nat) (line : string)
    (rest o : list string) (e : nat -> Z) (d : nat) :
  get_user_guess cap (mkWorld (line :: rest) o e d)
  = Returns (answer cap line)
            (mkWorld rest (o ++ guess_prompt :: complaint cap line) e d) /\
  (forall g,
     answer cap line = Some g <-> int cap line = inr g /\ 0 <= g <= 100) /\
  (forall x, int cap line = inl x -> answer cap line = None) /\
  (forall g,
     int cap line = inr g -> ~ (0 <= g <= 100) -> answer cap line = None) /\
  (answer cap line = None ->
   read_guess cap (mkWorld (line :: rest) o e d)
   = read_guess cap
       (mkWorld rest (o ++ guess_prompt :: complaint cap line) e d) /\
   forall s,
     settled (turn cap s (mkWorld (line :: rest) o e d))
     = settled (turn cap s (mkWorld rest o e d))) /\
  answer cap "150" = None /\
  answer cap "abc" = None.
Proof.
  repeat match goal with |- _ /\ _ => split end.
  - apply get_user_guess_line.
  - apply answer_in_range.
  - intros x E. unfold answer. now rewrite E.
  - intros g E N. destruct (answer cap line) as [g'|] eqn:A; [|reflexivity].
    apply answer_in_range in A as [A R]. rewrite E in A.
    inversion A; subst. contradiction.
  - intros A. split.
    + rewrite read_guess_line, A. reflexivity.
    + intros s. now apply turn_rejected_line.
  - apply answer_150.
  - apply answer_abc.
Qed.

Lemma bad_guess_costs_nothing_witness :
  answer 4300 "150" = None /\
  forall s,
    settled (turn 4300 s (world0 ["150"; "42"]))
    = settled (turn 4300 s (world0 ["42"])).
Proof.
  split; [reflexivity|].
  apply (proj2 (proj1 (proj2 (proj2 (proj2 (proj2
           (bad_guess_costs_nothing 4300 "150" ["42"] [] (fun _ => 42) O)))))
         eq_refl)).
Defined.

(* ===================================================================== *)
(** ** The start of a round *)
(* ===================================================================== *)

Lemma new_round_line c rest o e d :
  contains ["0"; "1"] (normalised c) = true ->
  exists printed,
    new_round (mkWorld (c :: rest) o e d)
    = Returns (mkSession (0 + e d mod (100 - 0 + 1))
                 (value (if String.eqb (normalised c) "0"
                         then NORMAL else HARD))
                 PLAYING)
              (mkWorld rest (o ++ printed) e (S d)).
Proof.
  intros C. unfold new_round, bind, print, print_end, randint, emit.
  cbn [stdin stdout entropy draws].
  rewrite get_valid_input_line, C, select_difficulty_runs.
  unfold emits, ret. cbn [stdin stdout entropy draws].
  rewrite <- !app_assoc. eexists. reflexivity.
Qed.

Lemma new_round_reachable w s w' :
  new_round w = Returns s w' -> reachable s.
Proof.
  unfold new_round, bind, print, print_end, randint, emit.
  cbn [stdin stdout entropy draws].
  match goal with
  | |- context [get_valid_input ?p ?opts ?W] =>
      destruct (get_valid_input p opts W) as [v w1| |]; try discriminate
  end.
  rewrite select_difficulty_runs. unfold ret.
  intros H; inversion H; subst. apply reach_start.
  pose proof (Z.mod_pos_bound (entropy w (draws w)) 101). lia.
Qed.

(** The locals the main loop ends with are reachable, and the round is
    over. *)
Lemma game_loop_reachable cap :
  forall b s w s' w',
    reachable s -> game_loop cap b s w = Returns s' w' ->
    reachable s' /\ game_state s' <> PLAYING.
Proof.
  induction b as [|b IH]; intros s w s' w' R; simpl;
    destruct (GameState_eqb (game_state s) PLAYING) eqn:P;
    try discriminate.
  - intros H; inversion H; subst. split; [exact R|].
    intros E. rewrite E in P. discriminate.
  - apply GameState_eqb_eq in P. unfold bind.
    destruct (turn cap s w) as [s1 w1| |] eqn:T; try discriminate.
    apply IH. apply (reach_step s); [exact R|].
    exact (turn_step cap s w s1 w1 P T).
  - intros H; inversion H; subst. split; [exact R|].
    intros E. rewrite E in P. discriminate.
Qed.

(** C4: for a choice among ['0'] and ['1'], [select_difficulty] answers
    [NORMAL] for ['0'] and [HARD] for ['1'], and the round that starts on
    that choice has the member's value as its attempts: 10 for [NORMAL],
    5 for [HARD]. *)
Theorem validated_choice_budget (c : string) :
  In c ["0"; "1"] ->
  exists dif,
    (forall w, exists printed,
       select_difficulty c w = Returns dif (emits printed w)) /\
    (c = "0" -> dif = NORMAL /\ value dif = 10) /\
    (c = "1" -> dif = HARD /\ value dif = 5) /\
    (forall rest o e d, exists printed,
       new_round (mkWorld (c :: rest) o e d)
       = Returns (mkSession (0 + e d mod (100 - 0 + 1)) (value dif) PLAYING)
                 (mkWorld rest (o ++ printed) e (S d))) /\
    value NORMAL = 10 /\ value HARD = 5.
Proof.
  intros [<-|[<-|[]]].
  - exists NORMAL. split; [|split; [|split; [|split; [|split]]]].
    + intros w. eexists. apply select_difficulty_runs.
    + intros _. split; reflexivity.
    + discriminate.
    + intros rest o e d. apply (new_round_line "0"). reflexivity.
    + reflexivity.
    + reflexivity.
  - exists HARD. split; [|split; [|split; [|split; [|split]]]].
    + intros w. eexists. apply select_difficulty_runs.
    + discriminate.
    + intros _. split; reflexivity.
    + intros rest o e d. apply (new_round_line "1"). reflexivity.
    + reflexivity.
    + reflexivity.
Qed.

Lemma validated_choice_budget_witness :
  In "1" ["0"; "1"] /\
  exists dif,
    (forall w, exists printed,
       select_difficulty "1" w = Returns dif (emits printed w)) /\
    value dif = 5.
Proof.
  split; [right; left; reflexivity|].
  destruct (validated_choice_budget "1" (or_intror (or_introl eq_refl)))
    as (dif & S & _ & H & _).
  exists dif. split; [exact S|]. exact (proj2 (H eq_refl)).
Defined.

(* ===================================================================== *)
(** ** A lost round *)
(* ===================================================================== *)

Lemma show_game_result_runs t st w :
  show_game_result t st w = Returns tt (emits (result_lines t st) w).
Proof.
  destruct st; unfold show_game_result; cbn [GameState_eqb result_lines].
  - unfold ret. now rewrite emits_nil.
  - reflexivity.
  - unfold bind, print, print_end. rewrite !emit_one, emits_emits.
    reflexivity.
Qed.

Lemma reveal_only_when_lost t st :
  In (reveal t) (result_lines t st) <-> st = LOST.
Proof.
  destruct st; cbn [result_lines In]; split; intros H;
    try discriminate H; try reflexivity.
  - destruct H.
  - destruct H as [H|[]]. discriminate H.
  - left. reflexivity.
Qed.

(** As many wrong guesses as there are attempts lose the round. *)
Lemma wrong_guesses_lose cap t lines gs :
  Forall2 (accepts cap) lines gs ->
  forall r rest o e d,
    Forall (fun g => g <> t) gs ->
    Z.of_nat (List.length gs) = r -> 1 <= r ->
    exists printed,
      play cap (mkSession t r PLAYING) (mkWorld (lines ++ rest) o e d)
      = Returns (mkSession t 0 LOST) (mkWorld rest (o ++ printed) e d).
Proof.
  induction 1 as [|line g lines gs A F2 IH]; intros r rest o e d W L R.
  - cbn in L. lia.
  - inversion W as [|? ? N W']; subst. cbn [app].
    pose proof (play_first cap (mkSession t (Z.of_nat (List.length (g :: gs)))
                                          PLAYING)
                  (line :: lines ++ rest) o e d eq_refl) as F.
    cbn [first_guess] in F. apply answer_Some in A. rewrite A in F.
    destruct F as [pr F]. rewrite F.
    rewrite advance_wrong by exact N. cbn [target_number remaining_attempts].
    destruct (Z.eqb_spec (Z.of_nat (List.length (g :: gs)) - 1) 0) as [E|E].
    + rewrite E. destruct gs; [|cbn [List.length] in E; lia].
      inversion F2; subst. cbn [app].
      rewrite play_terminal by (cbn; discriminate).
      eexists. reflexivity.
    + destruct (IH (Z.of_nat (List.length (g :: gs)) - 1) rest (o ++ pr) e d W')
        as [pr' IH']; [cbn [List.length]; lia | cbn [List.length] in *; lia |].
      rewrite IH', <- app_assoc. eexists. reflexivity.
Qed.

(* ===================================================================== *)
(** ** The whole game comes back *)
(* ===================================================================== *)

Lemma get_valid_input_shorter p opts w v w' :
  get_valid_input p opts w = Returns v w' ->
  (List.length (stdin w') < List.length (stdin w))%nat.
Proof.
  destruct w as [lines o e d]. revert o.
  induction lines as [|line rest IH]; intros o.
  - rewrite get_valid_input_eof. discriminate.
  - rewrite get_valid_input_line.
    destruct (contains opts (normalised line)).
    + intros H; inversion H; subst. cbn. lia.
    + intros H. specialize (IH _ H). cbn in *. lia.
Qed.

Lemma turn_shorter cap s w s' w' :
  game_state s = PLAYING -> turn cap s w = Returns s' w' ->
  (List.length (stdin w') < List.length (stdin w))%nat.
Proof.
  intros P T. destruct w as [lines o e d].
  pose proof (turn_first cap s lines o e d P) as F.
  destruct (first_guess cap lines) as [[g rest]|] eqn:G;
    destruct F as [pr F]; rewrite F in T; [|discriminate].
  inversion T; subst. cbn. exact (first_guess_shorter _ _ _ _ G).
Qed.

Lemma game_loop_not_longer cap :
  forall b s w s' w',
    game_loop cap b s w = Returns s' w' ->
    (List.length (stdin w') <= List.length (stdin w))%nat.
Proof.
  induction b as [|b IH]; intros s w s' w'; simpl;
    destruct (GameState_eqb (game_state s) PLAYING) eqn:P;
    try discriminate.
  - intros H; inversion H; subst. lia.
  - apply GameState_eqb_eq in P. unfold bind.
    destruct (turn cap s w) as [s1 w1| |] eqn:T; try discriminate.
    intros H. apply IH in H. apply (turn_shorter _ _ _ _ _ P) in T. lia.
  - intros H; inversion H; subst. lia.
Qed.

Lemma new_round_shorter w s w' :
  new_round w = Returns s w' ->
  (List.length (stdin w') < List.length (stdin w))%nat.
Proof.
  unfold new_round, bind, print, print_end, randint, emit.
  cbn [stdin stdout entropy draws].
  match goal with
  | |- context [get_valid_input ?p ?opts ?W] =>
      destruct (get_valid_input p opts W) as [v w1| |] eqn:G;
        try discriminate
  end.
  apply get_valid_input_shorter in G. cbn [stdin] in G.
  rewrite select_difficulty_runs. unfold ret, emits.
  cbn [stdin stdout entropy draws].
  intros H; inversion H; subst. cbn [stdin]. exact G.
Qed.

Lemma new_round_total w : new_round w <> Spins.
Proof.
  unfold new_round, bind, print, print_end, randint, emit.
  cbn [stdin stdout entropy draws].
  match goal with
  | |- context [get_valid_input ?p ?opts ?W] =>
      pose proof (get_valid_input_total p opts W) as G;
        destruct (get_valid_input p opts W) as [v w1| |];
        [|discriminate|contradiction]
  end.
  rewrite select_difficulty_runs. discriminate.
Qed.

Lemma play_round_runs cap w :
  play_round cap w <> Spins /\
  forall r w', play_round cap w = Returns r w' ->
               (List.length (stdin w') < List.length (stdin w))%nat.
Proof.
  unfold play_round, bind, print, print_end, emit.
  pose proof (new_round_total w) as N.
  destruct (new_round w) as [s0 w0| |] eqn:R0; cbv beta iota;
    [|split; [discriminate|intros; discriminate]|contradiction].
  apply new_round_shorter in R0.
  pose proof (play_total cap s0 w0) as Pt.
  destruct (play cap s0 w0) as [s1 w1| |] eqn:R1; cbv beta iota;
    [|split; [discriminate|intros; discriminate]|contradiction].
  apply game_loop_not_longer in R1.
  cbn [stdin stdout entropy draws].
  rewrite show_game_result_runs. unfold emits.
  cbn [stdin stdout entropy draws].
  match goal with
  | |- context [get_valid_input ?p ?opts ?W] =>
      pose proof (get_valid_input_total p opts W) as G;
        destruct (get_valid_input p opts W) as [v w2| |] eqn:R2;
        cbv beta iota;
        [|split; [discriminate|intros; discriminate]|contradiction]
  end.
  apply get_valid_input_shorter in R2. cbn [stdin] in R2.
  split; [discriminate|]. unfold ret.
  intros r w' H; inversion H; subst. lia.
Qed.

Lemma replay_loop_total cap :
  forall b play_again w,
    (List.length (stdin w) < b)%nat ->
    replay_loop cap b play_again w <> Spins.
Proof.
  induction b as [|b IH]; intros pa w Hb; [lia|]. simpl.
  destruct (String.eqb pa "y"); [|discriminate].
  unfold bind. destruct (play_round_runs cap w) as [T S].
  destruct (play_round cap w) as [r w1| |]; [|discriminate|contradiction].
  apply IH. specialize (S r w1 eq_refl). lia.
Qed.

(** [run_game] ends: it returns, or the input ends under it. *)
Lemma run_game_total cap w : run_game cap w <> Spins.
Proof.
  unfold run_game, bind, print, print_end, emit.
  cbn [stdin stdout entropy draws].
  match goal with
  | |- context [replay_loop cap ?b ?pa ?W] =>
      pose proof (replay_loop_total cap b pa W) as R;
        destruct (replay_loop cap b pa W); [discriminate|discriminate|]
  end.
  apply R. cbn [stdin]. lia.
Qed.

Example str_probe : map str [0; 7; 42; 100; -5] = ["0"; "7"; "42"; "100"; "-5"].
Proof. reflexivity. Qed.

(* ===================================================================== *)
(** ** Where the target is printed *)
(* ===================================================================== *)

Lemma quiet_nil : quiet [].
Proof. constructor. Qed.

Lemma quiet_app p q : quiet p -> quiet q -> quiet (p ++ q).
Proof. unfold quiet. rewrite Forall_app. auto. Qed.

Lemma quiet_one c : announces c = false -> quiet [c].
Proof. intros H. constructor; [exact H|constructor]. Qed.

Lemma quiet_not_reveal printed t : quiet printed -> ~ In (reveal t) printed.
Proof.
  unfold quiet. rewrite Forall_forall. intros Q I.
  specialize (Q _ I).
  assert (T : announces (reveal t) = true) by reflexivity.
  congruence.
Qed.

Lemma frames_ret {A} (a : A) : frames (ret a).
Proof.
  intros w. exists []. split; [now rewrite app_nil_r|apply quiet_nil].
Qed.

Lemma frames_raise {A} e : frames (@raise A e).
Proof.
  intros w. exists []. split; [now rewrite app_nil_r|apply quiet_nil].
Qed.

Lemma frames_bind {A B} (m : IO A) (k : A -> IO B) :
  frames m -> (forall a, frames (k a)) -> frames (bind m k).
Proof.
  intros Fm Fk w. unfold bind. specialize (Fm w).
  destruct (m w) as [a w1|e w1|]; [|exact Fm|exact I].
  destruct Fm as (p1 & E1 & Q1). specialize (Fk a w1).
  destruct (k a w1) as [b w2|e w2|]; [| |exact I];
    destruct Fk as (p2 & E2 & Q2); exists (p1 ++ p2);
    (split; [rewrite E2, E1, app_assoc; reflexivity|now apply quiet_app]).
Qed.

Lemma frames_try_except {A} (body handler : IO A) e :
  frames body -> frames handler -> frames (try_except body e handler).
Proof.
  intros Fb Fh w. unfold try_except. specialize (Fb w).
  destruct (body w) as [a w1|e' w1|]; [exact Fb| |exact I].
  destruct e, e'; try exact Fb;
    destruct Fb as (p1 & E1 & Q1); specialize (Fh w1);
    (destruct (handler w1) as [b w2|e2 w2|]; [| |exact I];
     destruct Fh as (p2 & E2 & Q2); exists (p1 ++ p2);
     (split; [rewrite E2, E1, app_assoc; reflexivity|now apply quiet_app])).
Qed.

Lemma frames_print_end text e :
  announces (text ++ e) = false -> frames (print_end text e).
Proof.
  intros H w. exists [(text ++ e)%string]. split; [reflexivity|].
  now apply quiet_one.
Qed.

Lemma frames_print text :
  announces (text ++ newline) = false -> frames (print text).
Proof. apply frames_print_end. Qed.

Lemma frames_input p : announces p = false -> frames (input p).
Proof.
  intros H w. unfold input. cbn [emit stdin stdout entropy draws].
  destruct (stdin w); exists [p]; (split; [reflexivity|now apply quiet_one]).
Qed.

Lemma frames_randint a b : frames (randint a b).
Proof.
  intros w. exists []. split; [cbn; now rewrite app_nil_r|apply quiet_nil].
Qed.

Lemma frames_lift {A} (r : exn + A) : frames (lift r).
Proof. destruct r; [apply frames_raise|apply frames_ret]. Qed.

Lemma frames_at {A} (f : World -> IO A) :
  (forall w0, frames (f w0)) -> frames (fun w => f w w).
Proof. intros H w. exact (H w w). Qed.

(** [str] never starts with a capital T. *)
Lemma announces_str g tail :
  announces (str g ++ String " " tail) = false.
Proof.
  unfold str. destruct g as [|p|p]; cbn [Z.to_int].
  - reflexivity.
  - unfold NilZero.string_of_int, NilZero.string_of_uint.
    destruct (Pos.to_uint p); reflexivity.
  - unfold NilZero.string_of_int, NilZero.string_of_uint.
    reflexivity.
Qed.

Lemma string_app_assoc (a b c : string) :
  ((a ++ b) ++ c = a ++ (b ++ c))%string.
Proof. induction a as [|x a IH]; simpl; [reflexivity|now rewrite IH]. Qed.

Lemma frames_get_valid_input_loop p opts :
  announces p = false ->
  forall b, frames (get_valid_input_loop b p opts).
Proof.
  intros Hp. induction b as [|b IH]; [intros w; exact I|].
  cbn [get_valid_input_loop].
  apply frames_bind; [now apply frames_input|]. intros line.
  destruct (contains opts (lower (strip line))); [apply frames_ret|].
  apply frames_bind; [apply frames_print; reflexivity|]. intros _. exact IH.
Qed.

Lemma frames_get_valid_input p opts :
  announces p = false -> frames (get_valid_input p opts).
Proof.
  intros Hp.
  apply (frames_at (fun w0 =>
           get_valid_input_loop (S (List.length (stdin w0))) p opts)).
  intros w0. now apply frames_get_valid_input_loop.
Qed.

Lemma frames_select_difficulty c : frames (select_difficulty c).
Proof.
  unfold select_difficulty.
  destruct (String.eqb c "0");
    (apply frames_bind; [apply frames_print; reflexivity|]);
    intros _; apply frames_ret.
Qed.

Lemma frames_for_range n body : frames body -> frames (for_range n body).
Proof.
  intros Fb. induction n as [|n IH]; cbn [for_range]; [apply frames_ret|].
  apply frames_bind; [exact Fb|intros _; exact IH].
Qed.

Lemma frames_show_life_hearts n : frames (show_life_hearts n).
Proof.
  unfold show_life_hearts.
  apply frames_bind; [|intros _; apply frames_print; reflexivity].
  apply frames_for_range. apply frames_print_end. reflexivity.
Qed.

Lemma frames_get_user_guess cap : frames (get_user_guess cap).
Proof.
  unfold get_user_guess. apply frames_try_except.
  - apply frames_bind; [apply frames_input; reflexivity|]. intros line.
    apply frames_bind; [apply frames_lift|]. intros guess.
    destruct (negb (validate_guess_range guess 0 100));
      [|apply frames_ret].
    apply frames_bind; [apply frames_print; reflexivity|].
    intros _. apply frames_ret.
  - apply frames_bind; [apply frames_print; reflexivity|].
    intros _. apply frames_ret.
Qed.

Lemma frames_guess_loop cap :
  forall b user_guess, frames (guess_loop cap b user_guess).
Proof.
  induction b as [|b IH]; intros [g|]; cbn [guess_loop];
    try apply frames_ret; [intros w; exact I|].
  apply frames_bind; [apply frames_get_user_guess|]. intros a. apply IH.
Qed.

Lemma frames_read_guess cap : frames (read_guess cap).
Proof.
  apply (frames_at (fun w0 =>
           guess_loop cap (S (List.length (stdin w0))) None)).
  intros w0. apply frames_guess_loop.
Qed.

Lemma frames_resolve s g : frames (resolve s g).
Proof.
  unfold resolve.
  destruct (String.eqb (check_guess (target_number s) g) "correct");
    [apply frames_ret|].
  destruct (remaining_attempts s - 1 =? 0); [apply frames_ret|].
  apply frames_bind; [|intros _; apply frames_ret].
  destruct (String.eqb (check_guess (target_number s) g) "too_high");
    apply frames_print; rewrite string_app_assoc; apply announces_str.
Qed.

Lemma frames_turn cap s : frames (turn cap s).
Proof.
  unfold turn.
  apply frames_bind; [apply frames_print_end; reflexivity|]. intros _.
  apply frames_bind; [apply frames_show_life_hearts|]. intros _.
  apply frames_bind; [apply frames_read_guess|]. intros g.
  apply frames_resolve.
Qed.

Lemma frames_game_loop cap : forall b s, frames (game_loop cap b s).
Proof.
  induction b as [|b IH]; intros s; cbn [game_loop];
    destruct (GameState_eqb (game_state s) PLAYING);
    try apply frames_ret; [intros w; exact I|].
  apply frames_bind; [apply frames_turn|]. intros s'. apply IH.
Qed.

Lemma frames_play cap s : frames (play cap s).
Proof.
  apply (frames_at (fun w0 =>
           game_loop cap (S (List.length (stdin w0))) s)).
  intros w0. apply frames_game_loop.
Qed.

Lemma frames_new_round : frames new_round.
Proof.
  unfold new_round.
  apply frames_bind; [apply frames_print; reflexivity|]. intros _.
  apply frames_bind; [apply frames_print; reflexivity|]. intros _.
  apply frames_bind; [apply frames_print; reflexivity|]. intros _.
  apply frames_bind; [apply frames_randint|]. intros target.
  apply frames_bind; [apply frames_print; reflexivity|]. intros _.
  apply frames_bind; [now apply frames_get_valid_input|]. intros c.
  apply frames_bind; [apply frames_select_difficulty|]. intros dif.
  apply frames_bind; [apply frames_print; reflexivity|]. intros _.
  apply frames_bind; [|intros _; apply frames_ret].
  apply frames_print. reflexivity.
Qed.

(** A round that comes back is over, and the line with its target is in
    what it printed exactly when it was lost. *)
Lemma round_reveals cap w s again w' :
  play_round cap w = Returns (s, again) w' ->
  exists printed,
    stdout w' = stdout w ++ printed /\
    game_state s <> PLAYING /\
    (In (reveal (target_number s)) printed <-> game_state s = LOST).
Proof.
  unfold play_round, bind.
  pose proof (frames_new_round w) as F0.
  destruct (new_round w) as [s0 w0| |] eqn:R0; try discriminate.
  destruct F0 as (p0 & E0 & Q0).
  pose proof (frames_play cap s0 w0) as F1.
  destruct (play cap s0 w0) as [s1 w1| |] eqn:R1; try discriminate.
  destruct F1 as (p1 & E1 & Q1).
  destruct (game_loop_reachable cap _ _ _ _ _ (new_round_reachable _ _ _ R0) R1)
    as [_ Over].
  unfold print, print_end, emit. cbn [stdin stdout entropy draws].
  rewrite show_game_result_runs. unfold emits.
  cbn [stdin stdout entropy draws].
  match goal with
  | |- context [get_valid_input ?p ?opts ?W] =>
      pose proof (frames_get_valid_input p opts eq_refl W) as F2;
        destruct (get_valid_input p opts W) as [v w2| |]; try discriminate
  end.
  destruct F2 as (p2 & E2 & Q2). cbn [stdout] in E2.
  unfold ret. intros H; inversion H; subst s1 v w2. clear H.
  exists (p0 ++ p1 ++ [(newline ++ rule) ++ newline]%string
             ++ result_lines (target_number s) (game_state s)
             ++ [rule ++ newline]%string ++ p2).
  split; [rewrite E2, E1, E0, <- !app_assoc; reflexivity|].
  split; [exact Over|].
  rewrite !in_app_iff, reveal_only_when_lost. split.
  - intros [I|[I|[I|[I|[I|I]]]]]; try exact I.
    + destruct (quiet_not_reveal _ _ Q0 I).
    + destruct (quiet_not_reveal _ _ Q1 I).
    + destruct I as [I|[]]. discriminate I.
    + destruct I as [I|[]]. discriminate I.
    + destruct (quiet_not_reveal _ _ Q2 I).
  - intros L. right. right. right. left. exact L.
Qed.

(** C6: a round that starts at [NORMAL] and gets ten accepted guesses,
    none of them the target, ends in state [LOST] with no attempt left, and
    the line with the target is among what the round prints;
    [show_game_result] prints that line exactly when the state is [LOST],
    what it prints for [WON] is the same for every target, and a round
    that comes back has printed the line with its target exactly when it
    ended in [LOST]. *)
Theorem ten_wrong_guesses_lose (cap : nat) (lines : list string)
    (gs : list Z) (again : string) (rest o : list string)
    (e : nat -> Z) (d : nat) :
  Forall2 (accepts cap) lines gs ->
  Forall (fun g => g <> 0 + e d mod (100 - 0 + 1)) gs ->
  List.length gs = 10%nat ->
  contains ["y"; "n"] (normalised again) = true ->
  (forall t, Forall (fun g => g <> t) gs ->
     exists printed,
       play cap (mkSession t (value NORMAL) PLAYING)
            (mkWorld (lines ++ again :: rest) o e d)
       = Returns (mkSession t 0 LOST)
                 (mkWorld (again :: rest) (o ++ printed) e d)) /\
  (exists printed,
     play_round cap (mkWorld ("0" :: lines ++ again :: rest) o e d)
     = Returns (mkSession (0 + e d mod (100 - 0 + 1)) 0 LOST,
                normalised again)
               (mkWorld rest (o ++ printed) e (S d)) /\
     In (reveal (0 + e d mod (100 - 0 + 1))) printed) /\
  (forall t st w,
     show_game_result t st w = Returns tt (emits (result_lines t st) w) /\
     (In (reveal t) (result_lines t st) <-> st = LOST)) /\
  (forall t t', result_lines t WON = result_lines t' WON) /\
  (forall w s again' w',
     play_round cap w = Returns (s, again') w' ->
     exists printed,
       stdout w' = stdout w ++ printed /\
       game_state s <> PLAYING /\
       (In (reveal (target_number s)) printed <-> game_state s = LOST)).
Proof.
  intros A W L C.
  assert (P : forall t o1 d1, Forall (fun g => g <> t) gs ->
            exists printed,
              play cap (mkSession t (value NORMAL) PLAYING)
                   (mkWorld (lines ++ again :: rest) o1 e d1)
              = Returns (mkSession t 0 LOST)
                        (mkWorld (again :: rest) (o1 ++ printed) e d1)).
  { intros t o1 d1 Wt.
    apply (wrong_guesses_lose cap t lines gs A); [exact Wt| |]; cbn; lia. }
  split; [|split; [|split; [|split]]].
  - intros t Wt. apply P, Wt.
  - unfold play_round. unfold bind at 1.
    destruct (new_round_line "0" (lines ++ again :: rest) o e d eq_refl)
      as [pr1 ->].
    change (value (if String.eqb (normalised "0") "0" then NORMAL else HARD))
      with (value NORMAL).
    unfold bind at 1.
    destruct (P _ (o ++ pr1) (S d) W) as [pr2 ->].
    unfold bind, print, print_end, emit.
    cbn [stdin stdout entropy draws target_number game_state].
    rewrite show_game_result_runs. unfold emits.
    cbn [stdin stdout entropy draws].
    rewrite get_valid_input_line, C. unfold ret.
    rewrite <- !app_assoc. eexists. split; [reflexivity|].
    rewrite !in_app_iff. right. right. right. left.
    cbn [result_lines]. left. reflexivity.
  - intros t st w. split;
      [apply show_game_result_runs | apply reveal_only_when_lost].
  - reflexivity.
  - apply round_reveals.
Qed.

Lemma ten_wrong_guesses_lose_witness :
  exists printed,
    play_round 4300
      (world0 ["0"; "1"; "2"; "3"; "4"; "5"; "6"; "7"; "8"; "9"; "10"; "n"])
    = Returns (mkSession 42 0 LOST, "n")
              (mkWorld [] ([] ++ printed) (fun _ => 42) 1%nat) /\
    In (reveal 42) printed.
Proof.
  refine (proj1 (proj2
    (ten_wrong_guesses_lose 4300
       ["1"; "2"; "3"; "4"; "5"; "6"; "7"; "8"; "9"; "10"]
       [1; 2; 3; 4; 5; 6; 7; 8; 9; 10] "n" [] [] (fun _ => 42) O
       _ _ eq_refl eq_refl))).
  - repeat (constructor; [split; reflexivity|]). constructor.
  - repeat (constructor; [discriminate|]). constructor.
Defined.

(* ===================================================================== *)
(** ** How the input is read *)
(* ===================================================================== *)

Lemma tidy_ret {A} (a : A) : tidy (ret a).
Proof. intros w. exists []. cbn. auto. Qed.

Lemma tidy_print_end text e : tidy (print_end text e).
Proof. intros w. exists []. cbn. auto. Qed.

Lemma tidy_print text : tidy (print text).
Proof. apply tidy_print_end. Qed.

Lemma tidy_randint a b : tidy (randint a b).
Proof. intros w. exists []. cbn. auto. Qed.

Lemma tidy_input p : tidy (input p).
Proof.
  intros [lines o e d]. unfold input. cbn [emit stdin stdout entropy draws].
  destruct lines as [|l rest]; cbn.
  - auto.
  - exists [l]. auto.
Qed.

Lemma tidy_bind {A B} (m : IO A) (k : A -> IO B) :
  tidy m -> (forall a, tidy (k a)) -> tidy (bind m k).
Proof.
  intros Tm Tk w. unfold bind. specialize (Tm w).
  destruct (m w) as [a w1|e w1|]; [|exact Tm|exact I].
  destruct Tm as (r1 & E1 & N1 & D1). specialize (Tk a w1).
  destruct (k a w1) as [b w2|e w2|]; [| |exact I].
  - destruct Tk as (r2 & E2 & N2 & D2). exists (r1 ++ r2).
    split; [rewrite E1, E2, app_assoc; reflexivity|].
    split; [congruence|lia].
  - destruct Tk as (E2 & S2 & N2). repeat split; congruence.
Qed.

Lemma tidy_at {A} (f : World -> IO A) :
  (forall w0, tidy (f w0)) -> tidy (fun w => f w w).
Proof. intros H w. exact (H w w). Qed.

Lemma tidy_get_valid_input_loop p opts :
  forall b, tidy (get_valid_input_loop b p opts).
Proof.
  induction b as [|b IH]; [intros w; exact I|].
  cbn [get_valid_input_loop].
  apply tidy_bind; [apply tidy_input|]. intros line.
  destruct (contains opts (lower (strip line))); [apply tidy_ret|].
  apply tidy_bind; [apply tidy_print|]. intros _. exact IH.
Qed.

Lemma tidy_get_valid_input p opts : tidy (get_valid_input p opts).
Proof.
  apply (tidy_at (fun w0 =>
           get_valid_input_loop (S (List.length (stdin w0))) p opts)).
  intros w0. apply tidy_get_valid_input_loop.
Qed.

Lemma tidy_select_difficulty c : tidy (select_difficulty c).
Proof.
  unfold select_difficulty.
  destruct (String.eqb c "0");
    (apply tidy_bind; [apply tidy_print|]); intros _; apply tidy_ret.
Qed.

Lemma tidy_show_life_hearts n : tidy (show_life_hearts n).
Proof.
  intros w. rewrite show_life_hearts_runs. exists []. cbn. auto.
Qed.

Lemma tidy_show_game_result t st : tidy (show_game_result t st).
Proof.
  intros w. rewrite show_game_result_runs. exists []. cbn. auto.
Qed.

Lemma tidy_get_user_guess cap : tidy (get_user_guess cap).
Proof.
  intros [lines o e d]. destruct lines as [|line rest].
  - rewrite get_user_guess_eof. cbn. auto.
  - rewrite get_user_guess_line. exists [line]. cbn. auto.
Qed.

Lemma tidy_guess_loop cap :
  forall b user_guess, tidy (guess_loop cap b user_guess).
Proof.
  induction b as [|b IH]; intros [g|]; cbn [guess_loop];
    try apply tidy_ret; [intros w; exact I|].
  apply tidy_bind; [apply tidy_get_user_guess|]. intros a. apply IH.
Qed.

Lemma tidy_read_guess cap : tidy (read_guess cap).
Proof.
  apply (tidy_at (fun w0 =>
           guess_loop cap (S (List.length (stdin w0))) None)).
  intros w0. apply tidy_guess_loop.
Qed.

Lemma tidy_resolve s g : tidy (resolve s g).
Proof.
  intros w. destruct (resolve_returns s g) as [s' H].
  destruct (H w) as [pr ->]. exists []. cbn. auto.
Qed.

Lemma tidy_turn cap s : tidy (turn cap s).
Proof.
  unfold turn.
  apply tidy_bind; [apply tidy_print_end|]. intros _.
  apply tidy_bind; [apply tidy_show_life_hearts|]. intros _.
  apply tidy_bind; [apply tidy_read_guess|]. intros g.
  apply tidy_resolve.
Qed.

Lemma tidy_game_loop cap : forall b s, tidy (game_loop cap b s).
Proof.
  induction b as [|b IH]; intros s; cbn [game_loop];
    destruct (GameState_eqb (game_state s) PLAYING);
    try apply tidy_ret; [intros w; exact I|].
  apply tidy_bind; [apply tidy_turn|]. intros s'. apply IH.
Qed.

Lemma tidy_play cap s : tidy (play cap s).
Proof.
  apply (tidy_at (fun w0 =>
           game_loop cap (S (List.length (stdin w0))) s)).
  intros w0. apply tidy_game_loop.
Qed.

Lemma tidy_new_round : tidy new_round.
Proof.
  unfold new_round.
  apply tidy_bind; [apply tidy_print|]. intros _.
  apply tidy_bind; [apply tidy_print|]. intros _.
  apply tidy_bind; [apply tidy_print|]. intros _.
  apply tidy_bind; [apply tidy_randint|]. intros target.
  apply tidy_bind; [apply tidy_print|]. intros _.
  apply tidy_bind; [apply tidy_get_valid_input|]. intros c.
  apply tidy_bind; [apply tidy_select_difficulty|]. intros dif.
  apply tidy_bind; [apply tidy_print|]. intros _.
  apply tidy_bind; [apply tidy_print|]. intros _. apply tidy_ret.
Qed.

Lemma tidy_play_round cap : tidy (play_round cap).
Proof.
  unfold play_round.
  apply tidy_bind; [apply tidy_new_round|]. intros s0.
  apply tidy_bind; [apply tidy_play|]. intros s.
  apply tidy_bind; [apply tidy_print|]. intros _.
  apply tidy_bind; [apply tidy_show_game_result|]. intros _.
  apply tidy_bind; [apply tidy_print|]. intros _.
  apply tidy_bind; [apply tidy_get_valid_input|]. intros again.
  apply tidy_ret.
Qed.

Lemma tidy_replay_loop cap : forall b again, tidy (replay_loop cap b again).
Proof.
  induction b as [|b IH]; intros again; cbn [replay_loop];
    destruct (String.eqb again "y");
    try apply tidy_ret; [intros w; exact I|].
  apply tidy_bind; [apply tidy_play_round|]. intros r. apply IH.
Qed.

Lemma tidy_run_game cap : tidy (run_game cap).
Proof.
  unfold run_game.
  apply tidy_bind; [apply tidy_print|]. intros _.
  apply tidy_bind; [apply tidy_print|]. intros _.
  apply tidy_bind; [apply tidy_print|]. intros _.
  apply tidy_bind.
  - apply (tidy_at (fun w0 =>
             replay_loop cap (S (List.length (stdin w0))) "y")).
    intros w0. apply tidy_replay_loop.
  - intros _.
    apply tidy_bind; [apply tidy_print|]. intros _.
    apply tidy_bind; [apply tidy_print|]. intros _. apply tidy_print.
Qed.

(** X1: [run_game] reads its lines from the front, in order, and never
    touches the random source's values; it either returns or raises
    [EOFError], and it raises only once every line has been read; it never
    goes on without reading. *)
Theorem run_game_reads_in_order (cap : nat) (w : World) :
  (exists w' read,
     run_game cap w = Returns tt w' /\
     stdin w = read ++ stdin w' /\ entropy w' = entropy w) \/
  (exists w',
     run_game cap w = Raises EOFError w' /\
     stdin w' = [] /\ entropy w' = entropy w).
Proof.
  pose proof (tidy_run_game cap w) as T.
  pose proof (run_game_total cap w) as N.
  destruct (run_game cap w) as [[] w'|e w'|]; [| |contradiction].
  - destruct T as (read & E & En & _). left. exists w', read. auto.
  - destruct T as (-> & E & En). right. exists w'. auto.
Qed.

(* ===================================================================== *)
(** ** How a round starts and how the game ends *)
(* ===================================================================== *)

(** The value [get_valid_input] returns comes from the last line it read. *)
Lemma get_valid_input_last p opts w v w' :
  get_valid_input p opts w = Returns v w' ->
  exists read line,
    stdin w = read ++ line :: stdin w' /\
    v = normalised line /\ In v opts /\
    entropy w' = entropy w /\ draws w' = draws w.
Proof.
  destruct w as [lines o e d]. revert o.
  induction lines as [|l rest IH]; intros o.
  - rewrite get_valid_input_eof. discriminate.
  - rewrite get_valid_input_line.
    destruct (contains opts (normalised l)) eqn:C.
    + intros H; inversion H; subst. exists [], l. cbn.
      repeat split. now apply contains_In.
    + intros H. destruct (IH _ H) as (read & line & E & V & I & En & D).
      cbn in E, En, D. exists (l :: read), line. cbn. rewrite E. auto.
Qed.

Lemma new_round_start_facts w s w' :
  new_round w = Returns s w' ->
  exists read line,
    stdin w = read ++ line :: stdin w' /\
    In (normalised line) ["0"; "1"] /\
    s = mkSession (0 + entropy w (draws w) mod (100 - 0 + 1))
                  (if String.eqb (normalised line) "0" then 10 else 5)
                  PLAYING /\
    entropy w' = entropy w /\ draws w' = S (draws w).
Proof.
  unfold new_round, bind, print, print_end, randint, emit.
  cbn [stdin stdout entropy draws].
  match goal with
  | |- context [get_valid_input ?p ?opts ?W] =>
      destruct (get_valid_input p opts W) as [v w1| |] eqn:G;
        try discriminate
  end.
  apply get_valid_input_last in G.
  destruct G as (read & line & E & V & I & En & D).
  cbn [stdin entropy draws] in E, En, D.
  rewrite select_difficulty_runs. unfold ret, emits.
  cbn [stdin stdout entropy draws].
  intros H; inversion H; subst s w'. clear H.
  exists read, line. cbn [stdin entropy draws]. subst v.
  repeat split; try assumption.
  destruct (String.eqb (normalised line) "0"); reflexivity.
Qed.

(** X3: a round that starts has a target between 0 and 100, is in state
    [PLAYING], and has 10 attempts when the line that chose the difficulty
    reads ['0'] once stripped and lowered, 5 when it reads ['1']; no other
    line gets past the difficulty prompt.  Starting a round takes exactly
    one draw from the random source. *)
Theorem new_round_start (w : World) (s : Session) (w' : World) :
  new_round w = Returns s w' ->
  0 <= target_number s <= 100 /\
  game_state s = PLAYING /\
  draws w' = S (draws w) /\
  exists read line,
    stdin w = read ++ line :: stdin w' /\
    ((lower (strip line) = "0" /\ remaining_attempts s = 10) \/
     (lower (strip line) = "1" /\ remaining_attempts s = 5)).
Proof.
  intros H. apply new_round_start_facts in H.
  destruct H as (read & line & E & I & -> & _ & D).
  cbn [target_number game_state remaining_attempts].
  split.
  { pose proof (Z.mod_pos_bound (entropy w (draws w)) 101).
    change (100 - 0 + 1) with 101. lia. }
  split; [reflexivity|]. split; [exact D|].
  exists read, line. split; [exact E|].
  fold (normalised line).
  destruct I as [I|[I|[]]]; rewrite <- I; [left|right]; split; reflexivity.
Qed.

Lemma new_round_start_witness :
  exists s w',
    new_round (world0 ["x"; " 1 "; "50"]) = Returns s w' /\
    0 <= target_number s <= 100 /\ game_state s = PLAYING.
Proof.
  eassert (R : new_round (world0 ["x"; " 1 "; "50"]) = Returns _ _)
    by (vm_compute; reflexivity).
  eexists _, _. split; [exact R|].
  pose proof (new_round_start _ _ _ R) as H.
  split; [exact (proj1 H)|exact (proj1 (proj2 H))].
Defined.

Lemma play_round_last cap w s again w' :
  play_round cap w = Returns (s, again) w' ->
  exists read line,
    stdin w = read ++ line :: stdin w' /\
    again = normalised line /\ In again ["y"; "n"].
Proof.
  unfold play_round, bind.
  pose proof (tidy_new_round w) as T0.
  destruct (new_round w) as [s0 w0| |]; try discriminate.
  destruct T0 as (r0 & E0 & _).
  pose proof (tidy_play cap s0 w0) as T1.
  destruct (play cap s0 w0) as [s1 w1| |]; try discriminate.
  destruct T1 as (r1 & E1 & _).
  unfold print, print_end, emit. cbn [stdin stdout entropy draws].
  rewrite show_game_result_runs. unfold emits.
  cbn [stdin stdout entropy draws].
  match goal with
  | |- context [get_valid_input ?p ?opts ?W] =>
      destruct (get_valid_input p opts W) as [v w2| |] eqn:G;
        try discriminate
  end.
  apply get_valid_input_last in G.
  destruct G as (r2 & line & E2 & V & I & _).
  cbn [stdin] in E2. unfold ret.
  intros H; inversion H as [[Hs Hv Hw]]. clear H.
  exists (r0 ++ r1 ++ r2), line.
  split; [rewrite E0, E1, E2, Hw, <- !app_assoc; reflexivity|].
  split; [congruence|]. rewrite <- Hv. exact I.
Qed.

Lemma replay_loop_last cap :
  forall b again w w',
    replay_loop cap b again w = Returns tt w' ->
    (again <> "y" /\ w' = w) \/
    exists read line,
      stdin w = read ++ line :: stdin w' /\ normalised line = "n".
Proof.
  induction b as [|b IH]; intros again w w'; cbn [replay_loop];
    destruct (String.eqb_spec again "y") as [Y|N]; try discriminate.
  - unfold ret. intros H; inversion H; subst. left. auto.
  - unfold bind.
    destruct (play_round cap w) as [[s a] w1| |] eqn:R; try discriminate.
    cbn [snd]. intros H. right.
    apply play_round_last in R. destruct R as (read & line & E & V & I).
    destruct (IH _ _ _ H) as [[Ny ->]|(read' & line' & E' & V')].
    + exists read, line. split; [exact E|].
      destruct I as [I|[I|[]]]; congruence.
    + exists (read ++ line :: read'), line'.
      split; [rewrite E, E', <- app_assoc; reflexivity|exact V'].
  - unfold ret. intros H; inversion H; subst. left. auto.
Qed.

(** X2: when [run_game] returns, the last line it read is an ['n'] (once
    stripped and lowered): the game ends in no other way, and the lines
    after that ['n'] are left unread. *)
Theorem game_ends_on_n (cap : nat) (w w' : World) :
  run_game cap w = Returns tt w' ->
  exists read line,
    stdin w = read ++ line :: stdin w' /\ lower (strip line) = "n".
Proof.
  unfold run_game, bind, print, print_end, emit.
  cbn [stdin stdout entropy draws].
  match goal with
  | |- context [replay_loop cap ?b ?pa ?W] =>
      destruct (replay_loop cap b pa W) as [[] w1| |] eqn:R;
        try discriminate
  end.
  intros H; inversion H; subst w'. clear H. cbn [stdin].
  apply replay_loop_last in R.
  destruct R as [[Ny _]|R]; [congruence|]. exact R.
Qed.

Lemma game_ends_on_n_witness :
  exists w' read line,
    run_game 4300 (world0 ["0"; "42"; " N "; "left"]) = Returns tt w' /\
    ["0"; "42"; " N "; "left"] = read ++ line :: stdin w' /\
    lower (strip line) = "n".
Proof.
  eassert (R : run_game 4300 (world0 ["0"; "42"; " N "; "left"])
               = Returns tt _)
    by (vm_compute; reflexivity).
  destruct (game_ends_on_n _ _ _ R) as (read & line & E & V).
  eexists _, read, line. split; [exact R|]. split; assumption.
Defined.

Lemma reachable_bounded s :
  reachable s ->
  0 <= target_number s <= 100 /\
  remaining_attempts s <= 10 /\
  (game_state s = WON -> 1 <= remaining_attempts s).
Proof.
  induction 1 as [t d Ht|s s' R IH St].
  - cbn. destruct d; cbn; repeat split; try lia; discriminate.
  - destruct IH as (T & U & W).
    pose proof (reachable_well_counted _ R) as (_ & P1 & _).
    destruct (step_advance _ _ St) as (g & P & ->). specialize (P1 P).
    destruct (Z.eq_dec g (target_number s)) as [E|N].
    + rewrite (advance_correct _ _ E). cbn. repeat split; intros; lia.
    + rewrite (advance_wrong _ _ N). cbn.
      destruct (remaining_attempts s - 1 =? 0);
        repeat split; intros; try lia; discriminate.
Qed.

Lemma play_round_reachable cap w s again w' :
  play_round cap w = Returns (s, again) w' ->
  reachable s /\ game_state s <> PLAYING.
Proof.
  unfold play_round, bind.
  destruct (new_round w) as [s0 w0| |] eqn:R0; try discriminate.
  destruct (play cap s0 w0) as [s1 w1| |] eqn:R1; try discriminate.
  pose proof (game_loop_reachable cap _ _ _ _ _
                (new_round_reachable _ _ _ R0) R1) as G.
  unfold print, print_end, emit. cbn [stdin stdout entropy draws].
  rewrite show_game_result_runs.
  match goal with
  | |- context [get_valid_input ?p ?opts ?W] =>
      destruct (get_valid_input p opts W) as [v w2| |]; try discriminate
  end.
  unfold ret. intros H; inversion H as [[Hs Hv Hw]]. rewrite <- Hs. exact G.
Qed.

(** X4: a round that comes back is over: it is won with between 1 and
    10 attempts left, or lost with none; its target is between 0 and 100;
    and the answer to the replay question it hands on is ['y'] or ['n']. *)
Theorem round_end (cap : nat) (w : World) (s : Session) (again : string)
    (w' : World) :
  play_round cap w = Returns (s, again) w' ->
  (again = "y" \/ again = "n") /\
  0 <= target_number s <= 100 /\
  ((game_state s = WON /\ 1 <= remaining_attempts s <= 10) \/
   (game_state s = LOST /\ remaining_attempts s = 0)).
Proof.
  intros H.
  destruct (play_round_last _ _ _ _ _ H) as (_ & _ & _ & _ & I).
  destruct (play_round_reachable _ _ _ _ _ H) as [R Over].
  destruct (reachable_bounded _ R) as (T & U & W).
  destruct (reachable_well_counted _ R) as (_ & _ & L).
  split; [destruct I as [I|[I|[]]]; auto|]. split; [exact T|].
  destruct (game_state s) eqn:G; [contradiction| |].
  - left. split; [reflexivity|]. specialize (W eq_refl). lia.
  - right. split; [reflexivity|]. exact (L eq_refl).
Qed.

Lemma round_end_witness :
  exists s again w',
    play_round 4300 (world0 ["1"; "50"; "42"; "y"]) = Returns (s, again) w' /\
    (again = "y" \/ again = "n") /\
    0 <= target_number s <= 100.
Proof.
  eassert (R : play_round 4300 (world0 ["1"; "50"; "42"; "y"])
               = Returns (_, _) _)
    by (vm_compute; reflexivity).
  eexists _, _, _. split; [exact R|].
  pose proof (round_end _ _ _ _ _ R) as H.
  split; [exact (proj1 H)|exact (proj1 (proj2 H))].
Defined.

(* ===================================================================== *)
(** ** The main loop, line by line *)
(* ===================================================================== *)

Lemma referee_terminal cap lines s :
  game_state s <> PLAYING -> referee cap lines s = Some (s, lines).
Proof.
  intros N. destruct lines; cbn [referee];
    (destruct (GameState_eqb (game_state s) PLAYING) eqn:P;
     [apply GameState_eqb_eq in P; contradiction|reflexivity]).
Qed.

Lemma referee_playing cap line rest s :
  game_state s = PLAYING ->
  referee cap (line :: rest) s
  = referee cap rest (match answer cap line with
                      | Some g => advance s g
                      | None => s
                      end).
Proof. intros P. cbn [referee]. rewrite P. reflexivity. Qed.

Lemma play_referee_upto cap :
  forall n lines s o e d,
    (List.length lines <= n)%nat ->
    settled (play cap s (mkWorld lines o e d)) = referee cap lines s.
Proof.
  induction n as [|n IH]; intros lines s o e d Hn;
    (destruct (GameState_eqb (game_state s) PLAYING) eqn:P;
     [ apply GameState_eqb_eq in P
     | assert (N : game_state s <> PLAYING)
         by (intros E; rewrite E in P; discriminate);
       rewrite (play_terminal _ _ _ N), (referee_terminal _ _ _ N);
       reflexivity ]).
  - destruct lines; [|cbn in Hn; lia].
    destruct (play_first cap s [] o e d P) as [pr ->].
    cbn [referee]. rewrite P. reflexivity.
  - destruct lines as [|line tl].
    + destruct (play_first cap s [] o e d P) as [pr ->].
      cbn [referee]. rewrite P. reflexivity.
    + cbn [List.length] in Hn. rewrite (referee_playing _ _ _ _ P).
      pose proof (play_first cap s (line :: tl) o e d P) as F.
      cbn [first_guess] in F.
      destruct (answer cap line) as [g|].
      * destruct F as [pr ->]. apply IH. lia.
      * rewrite <- (IH tl s o e d) by lia.
        pose proof (play_first cap s tl o e d P) as F'.
        destruct (first_guess cap tl) as [[g rest]|] eqn:G.
        -- destruct F as [pr ->]. destruct F' as [pr' ->].
           apply first_guess_shorter in G.
           rewrite !IH by lia. reflexivity.
        -- destruct F as [pr ->]. destruct F' as [pr' ->]. reflexivity.
Qed.

Lemma play_referee cap s w :
  settled (play cap s w) = referee cap (stdin w) s.
Proof.
  destruct w as [lines o e d]. cbn [stdin].
  apply (play_referee_upto cap (List.length lines)). lia.
Qed.

(** X5: the main loop of a round behaves as a machine fed one line at a
    time: a line that is turned down changes nothing, an accepted one
    moves the locals by one turn, and the loop stops reading as soon as
    the state is not [PLAYING].  The locals it ends with and the lines it
    leaves depend on the lines alone, not on what was printed before nor
    on the random source; when the lines run out during play it raises
    [EOFError]. *)
Theorem main_loop_line_by_line (cap : nat) (s : Session) (w : World) :
  settled (play cap s w) = referee cap (stdin w) s /\
  (referee cap (stdin w) s = None ->
   exists w', play cap s w = Raises EOFError w' /\ stdin w' = []) /\
  (forall w2, stdin w2 = stdin w ->
     settled (play cap s w2) = settled (play cap s w)).
Proof.
  split; [apply play_referee|]. split.
  - intros N. rewrite <- play_referee in N.
    pose proof (tidy_play cap s w) as T. pose proof (play_total cap s w) as S.
    destruct (play cap s w) as [s' w'|e w'|];
      [discriminate N| |contradiction].
    destruct T as (-> & E & _). exists w'. auto.
  - intros w2 E. rewrite !play_referee, E. reflexivity.
Qed.

Lemma main_loop_line_by_line_witness :
  referee 4300 ["abc"; "50"] (mkSession 42 10 PLAYING) = None /\
  exists w',
    play 4300 (mkSession 42 10 PLAYING) (world0 ["abc"; "50"])
    = Raises EOFError w' /\ stdin w' = [].
Proof.
  split; [reflexivity|].
  exact (proj1 (proj2 (main_loop_line_by_line 4300 (mkSession 42 10 PLAYING)
                         (world0 ["abc"; "50"]))) eq_refl).
Defined.

Lemma rejected_false_answer cap line :
  rejected cap line = false -> exists g, answer cap line = Some g.
Proof.
  intros R. destruct (answer cap line) as [g|] eqn:A; [eauto|].
  apply answer_None in A. congruence.
Qed.

Lemma referee_without_rejected cap lines :
  forall s,
    option_map fst
      (referee cap (filter (fun l => negb (rejected cap l)) lines) s)
    = option_map fst (referee cap lines s).
Proof.
  induction lines as [|line tl IH]; intros s; [reflexivity|].
  destruct (GameState_eqb (game_state s) PLAYING) eqn:P.
  - apply GameState_eqb_eq in P. cbn [filter].
    rewrite (referee_playing _ line tl _ P).
    destruct (rejected cap line) eqn:R; cbn [negb].
    + apply answer_None in R. rewrite R. apply IH.
    + destruct (rejected_false_answer _ _ R) as [g A].
      rewrite (referee_playing _ _ _ _ P), A. apply IH.
  - assert (N : game_state s <> PLAYING)
      by (intros E; rewrite E in P; discriminate).
    rewrite !(referee_terminal _ _ _ N). reflexivity.
Qed.

(** X6: the locals a round's main loop ends with are the same when every
    line the guess prompt turns down is taken out of the input: malformed
    and out-of-range lines, wherever they are typed, never change how a
    round ends. *)
Theorem rejected_lines_do_not_matter (cap : nat) (s : Session)
    (lines o o' : list string) (e e' : nat -> Z) (d d' : nat) :
  option_map fst
    (settled (play cap s
       (mkWorld (filter (fun l => negb (rejected cap l)) lines) o' e' d')))
  = option_map fst (settled (play cap s (mkWorld lines o e d))).
Proof.
  rewrite !play_referee. cbn [stdin]. apply referee_without_rejected.
Qed.

(* ===================================================================== *)
(** ** Who wins *)
(* ===================================================================== *)

Lemma misses_In t gs : (misses t gs < List.length gs)%nat <-> In t gs.
Proof.
  induction gs as [|g gs IH]; cbn [misses List.length In].
  - split; [lia|tauto].
  - destruct (Z.eqb_spec g t) as [E|N].
    + split; [auto|lia].
    + rewrite <- IH. split; [lia|]. intros [E|L]; [contradiction|lia].
Qed.

Lemma misses_le t gs : (misses t gs <= List.length gs)%nat.
Proof.
  induction gs as [|g gs IH]; cbn [misses List.length]; [lia|].
  destruct (g =? t); lia.
Qed.

Lemma play_by_guesses cap t lines gs :
  Forall2 (accepts cap) lines gs ->
  forall r rest o e d,
    1 <= r ->
    (misses t gs < List.length gs)%nat \/ r <= Z.of_nat (List.length gs) ->
    exists printed,
      play cap (mkSession t r PLAYING) (mkWorld (lines ++ rest) o e d)
      = Returns
          (if Z.of_nat (misses t gs) <? r
           then mkSession t (r - Z.of_nat (misses t gs)) WON
           else mkSession t 0 LOST)
          (mkWorld
             (skipn (if Z.of_nat (misses t gs) <? r
                     then S (misses t gs) else Z.to_nat r) lines ++ rest)
             (o ++ printed) e d).
Proof.
  induction 1 as [|line g lines gs A F2 IH]; intros r rest o e d R H.
  - cbn in H. lia.
  - cbn [app].
    pose proof (play_first cap (mkSession t r PLAYING)
                  (line :: lines ++ rest) o e d eq_refl) as F.
    cbn [first_guess] in F. apply answer_Some in A. rewrite A in F.
    destruct F as [pr ->]. cbn [misses].
    destruct (Z.eqb_spec g t) as [E|N].
    + rewrite (advance_correct (mkSession t r PLAYING) g E).
      cbn [target_number remaining_attempts].
      rewrite play_terminal by (cbn; discriminate).
      replace (Z.of_nat 0 <? r) with true by (symmetry; apply Z.ltb_lt; lia).
      replace (r - Z.of_nat 0) with r by lia.
      cbn [skipn]. eexists. reflexivity.
    + rewrite (advance_wrong (mkSession t r PLAYING) g N).
      cbn [target_number remaining_attempts].
      destruct (Z.eqb_spec (r - 1) 0) as [Z0|NZ].
      * rewrite play_terminal by (cbn; discriminate).
        replace (Z.of_nat (S (misses t gs)) <? r) with false
          by (symmetry; apply Z.ltb_ge; lia).
        replace (Z.to_nat r) with 1%nat by lia.
        rewrite Z0. cbn [skipn]. eexists. reflexivity.
      * assert (H' : (misses t gs < List.length gs)%nat \/
                     r - 1 <= Z.of_nat (List.length gs)).
        { cbn [misses List.length] in H.
          destruct (Z.eqb_spec g t); [contradiction|]. lia. }
        destruct (IH (r - 1) rest (o ++ pr) e d ltac:(lia) H') as [pr' ->].
        replace (Z.of_nat (S (misses t gs)) <? r)
          with (Z.of_nat (misses t gs) <? r - 1)
          by (destruct (Z.ltb_spec (Z.of_nat (misses t gs)) (r - 1));
              symmetry; [apply Z.ltb_lt|apply Z.ltb_ge]; lia).
        destruct (Z.ltb_spec (Z.of_nat (misses t gs)) (r - 1)).
        -- replace (r - 1 - Z.of_nat (misses t gs))
             with (r - Z.of_nat (S (misses t gs))) by lia.
           cbn [skipn]. rewrite <- app_assoc. eexists. reflexivity.
        -- replace (Z.to_nat r) with (S (Z.to_nat (r - 1))) by lia.
           cbn [skipn]. rewrite <- app_assoc. eexists. reflexivity.
Qed.

(** X7: with [r >= 1] attempts and accepted guesses [gs] that hold the
    target or number at least [r], the main loop returns: when fewer than
    [r] guesses come before the first one that hits the target, the round
    is won, with [r] minus that number of attempts left, and the guesses
    after the hit stay unread; otherwise it is lost after exactly [r]
    guesses, with no attempt left. *)
Theorem round_outcome (cap : nat) (t : Z) (lines : list string)
    (gs : list Z) (r : Z) (rest o : list string) (e : nat -> Z) (d : nat) :
  Forall2 (accepts cap) lines gs ->
  1 <= r ->
  In t gs \/ r <= Z.of_nat (List.length gs) ->
  exists printed,
    play cap (mkSession t r PLAYING) (mkWorld (lines ++ rest) o e d)
    = Returns
        (if Z.of_nat (misses t gs) <? r
         then mkSession t (r - Z.of_nat (misses t gs)) WON
         else mkSession t 0 LOST)
        (mkWorld
           (skipn (if Z.of_nat (misses t gs) <? r
                   then S (misses t gs) else Z.to_nat r) lines ++ rest)
           (o ++ printed) e d).
Proof.
  intros A R H. apply (play_by_guesses cap t lines gs A); [exact R|].
  destruct H as [I|L]; [left; now apply misses_In|right; exact L].
Qed.

Lemma round_outcome_witness :
  exists printed,
    play 4300 (mkSession 42 5 PLAYING)
         (mkWorld (["50"; "30"; "42"; "7"] ++ ["y"]) [] (fun _ => 42) 1%nat)
    = Returns (mkSession 42 3 WON)
              (mkWorld (["7"] ++ ["y"]) ([] ++ printed) (fun _ => 42) 1%nat).
Proof.
  refine (round_outcome 4300 42 ["50"; "30"; "42"; "7"] [50; 30; 42; 7] 5
            ["y"] [] (fun _ => 42) 1%nat _ _ _).
  - repeat (constructor; [split; reflexivity|]). constructor.
  - lia.
  - left. cbn. auto.
Defined.

(* ===================================================================== *)
(** ** What the prompts accept *)
(* ===================================================================== *)

Lemma numerals_read_back cap :
  forallb (fun g => match answer cap (str g) with
                    | Some g' => g' =? g
                    | None => false
                    end) numerals = true.
Proof. vm_compute. reflexivity. Qed.

Lemma numeral_answer cap g : 0 <= g <= 100 -> answer cap (str g) = Some g.
Proof.
  intros R.
  assert (I : In g numerals).
  { unfold numerals. apply in_map_iff. exists (Z.to_nat g).
    split; [lia|]. apply in_seq. lia. }
  pose proof (numerals_read_back cap) as F.
  rewrite forallb_forall in F. specialize (F g I).
  destruct (answer cap (str g)) as [g'|]; [|discriminate].
  apply Z.eqb_eq in F. now subst.
Qed.

(** X8: the decimal numeral of every integer from 0 to 100, typed with
    any spaces (of those [int] skips) around it, is accepted by
    [get_user_guess] as that integer, and nothing but the prompt is
    printed. *)
Theorem numeral_is_accepted (cap : nat) (g : Z) (p q : string)
    (rest o : list string) (e : nat -> Z) (d : nat) :
  0 <= g <= 100 ->
  every int_isspace p = true -> every int_isspace q = true ->
  get_user_guess cap (mkWorld ((p ++ str g ++ q)%string :: rest) o e d)
  = Returns (Some g) (mkWorld rest (o ++ [guess_prompt]) e d).
Proof.
  intros R Hp Hq. rewrite get_user_guess_line.
  pose proof (numeral_answer cap g R) as A.
  unfold answer, complaint in *. rewrite (int_pad cap p (str g) q Hp Hq).
  destruct (int cap (str g)) as [x|v]; [discriminate|].
  destruct (validate_guess_range v 0 100); [|discriminate].
  rewrite A. reflexivity.
Qed.

Lemma numeral_is_accepted_witness :
  get_user_guess 4300 (world0 ["  100 "; "y"])
  = Returns (Some 100)
            (mkWorld ["y"] ([] ++ [guess_prompt]) (fun _ => 42) O).
Proof.
  apply (numeral_is_accepted 4300 100 "  " " " ["y"] [] (fun _ => 42) O);
    [lia|reflexivity|reflexivity].
Defined.

Section StripTwice.
Variable sp : ascii -> bool.

Lemma rstrip_by_twice s : rstrip_by sp (rstrip_by sp s) = rstrip_by sp s.
Proof.
  induction s as [|c s IH]; [reflexivity|]. cbn [rstrip_by].
  destruct (rstrip_by sp s) as [|a r] eqn:E.
  - destruct (sp c) eqn:C; [reflexivity|]. cbn [rstrip_by]. now rewrite C.
  - cbn [rstrip_by] in *. rewrite IH. reflexivity.
Qed.

Lemma lstrip_by_head s :
  lstrip_by sp s = EmptyString \/
  exists c t, lstrip_by sp s = String c t /\ sp c = false.
Proof.
  induction s as [|c s IH]; [left; reflexivity|]. cbn [lstrip_by].
  destruct (sp c) eqn:C; [exact IH|]. right. eauto.
Qed.

Lemma lstrip_by_rstrip_by c t :
  sp c = false ->
  lstrip_by sp (rstrip_by sp (String c t)) = rstrip_by sp (String c t).
Proof.
  intros C. cbn [rstrip_by].
  destruct (rstrip_by sp t); rewrite ?C; cbn [lstrip_by]; now rewrite C.
Qed.

Lemma strip_by_twice s : strip_by sp (strip_by sp s) = strip_by sp s.
Proof.
  unfold strip_by.
  destruct (lstrip_by_head s) as [->|(c & t & -> & C)]; [reflexivity|].
  rewrite (lstrip_by_rstrip_by c t C). apply rstrip_by_twice.
Qed.
End StripTwice.

Lemma normalised_twice s : normalised (normalised s) = normalised s.
Proof.
  unfold normalised, strip.
  rewrite (strip_by_lower isspace isspace_lower_char).
  rewrite strip_by_twice. apply lower_idempotent.
Qed.

(** X9: what [get_valid_input] returns is one of the options and is
    already stripped and lowered; so an option that is not (one with a
    capital letter, or with a space at an end) is never returned, whatever
    is typed, and with no option at all it never returns. *)
Theorem only_normal_options_chosen (p : string) (opts : list string)
    (w : World) (v : string) (w' : World) :
  get_valid_input p opts w = Returns v w' ->
  In v opts /\ lower (strip v) = v /\ opts <> [].
Proof.
  intros H. destruct (get_valid_input_member _ _ _ _ _ H) as (I & l & _ & E).
  split; [exact I|]. split.
  - fold (normalised v). rewrite E. apply normalised_twice.
  - intros N. rewrite N in I. destruct I.
Qed.

Lemma only_normal_options_chosen_witness :
  In "y" ["y"; "N"] /\ lower (strip "y") = "y" /\ ["y"; "N"] <> [].
Proof.
  eassert (R : get_valid_input "? " ["y"; "N"] (world0 ["N"; " Y"])
               = Returns "y" _)
    by (vm_compute; reflexivity).
  exact (only_normal_options_chosen _ _ _ _ _ R).
Defined.

(** X10: after a guess, lines 178-190 print one hint, and the right one:
    "too high" for a guess above the target and "too low" for one below,
    when attempts are left after it; they print nothing for the target
    itself, and nothing for a wrong guess that uses up the last attempt. *)
Theorem hint_after_guess (s : Session) (g : Z) (w : World) :
  exists s' printed,
    resolve s g w = Returns s' (emits printed w) /\
    (g = target_number s -> printed = []) /\
    (remaining_attempts s = 1 -> printed = []) /\
    (g > target_number s -> remaining_attempts s <> 1 ->
     printed = [((str g ++ " is too high! â†“") ++ newline)%string]) /\
    (g < target_number s -> remaining_attempts s <> 1 ->
     printed = [((str g ++ " is too low! â†‘") ++ newline)%string]).
Proof.
  unfold resolve. rewrite check_guess_cases. unfold evaluateGuess.
  destruct (Z.compare_spec g (target_number s)) as [E|L|G];
    cbn [String.eqb Ascii.eqb Bool.eqb].
  - eexists _, []. rewrite emits_nil. split; [reflexivity|].
    repeat split; intros; try reflexivity; lia.
  - destruct (Z.eqb_spec (remaining_attempts s - 1) 0) as [Z0|NZ].
    + eexists _, []. rewrite emits_nil. split; [reflexivity|].
      repeat split; intros; try reflexivity; lia.
    + eexists _, _. unfold bind, print, print_end, ret. rewrite emit_one.
      split; [reflexivity|]. repeat split; intros; try reflexivity; lia.
  - destruct (Z.eqb_spec (remaining_attempts s - 1) 0) as [Z0|NZ].
    + eexists _, []. rewrite emits_nil. split; [reflexivity|].
      repeat split; intros; try reflexivity; lia.
    + eexists _, _. unfold bind, print, print_end, ret. rewrite emit_one.
      split; [reflexivity|]. repeat split; intros; try reflexivity; lia.
Qed.
